(** * Coin collector: a shallow embedding of [CoinCollector] (source.py)

    The game object [self] is split into the attributes fixed by [__init__]
    ([Config]) and the attributes the game loop mutates ([State]).  The
    lists [self.coins] and [self.monsters] are Python lists mutated in
    place; a call [move_objects(objects)] receives one of the two by
    reference, which is modelled by the selector [ListRef].  Rendering
    ([draw_display]) reads the state and never writes it, so it is left
    out. *)

From Stdlib Require Import ZArith QArith Lia Bool.
From stdpp Require Import base tactics option list.

Local Open Scope Z_scope.

(** ** Data *)

(** The keys of the dictionary [self.images]. *)
Inductive ImageName := robot | coin | monster.

(** What the code reads of a loaded image: [get_width()], [get_height()]. *)
Record Image := mkImage { get_width : Z; get_height : Z }.

(** Attributes set once by [__init__] and never assigned again. *)
Record Config := mkConfig {
  display_width : Z;
  display_height : Z;
  velocity_y : Z;
  images : ImageName -> Image
}.

(** [__init__(display_width, display_height)]: [velocity_y] is 1. *)
Definition init_config (w h : Z) (imgs : ImageName -> Image) : Config :=
  {| display_width := w; display_height := h; velocity_y := 1; images := imgs |}.

(** A falling object is the tuple [(x, y)]. *)
Abbreviation Pos := (Z * Z)%type.

(** Attributes assigned by [new_game] and mutated by the loop. *)
Record State := mkState {
  player_x : Z;
  player_y : Z;
  to_left : bool;
  to_right : bool;
  monsters : list Pos;
  coins : list Pos;
  score : Z;
  player_lives : Z;
  missed_coins : Z
}.

(** Which attribute the argument [objects] of [move_objects] aliases. *)
Inductive ListRef := Coins | Monsters.

Definition objects_of (r : ListRef) (st : State) : list Pos :=
  match r with Coins => coins st | Monsters => monsters st end.

Definition set_objects (r : ListRef) (l : list Pos) (st : State) : State :=
  match r with
  | Coins =>
      mkState (player_x st) (player_y st) (to_left st) (to_right st)
              (monsters st) l (score st) (player_lives st) (missed_coins st)
  | Monsters =>
      mkState (player_x st) (player_y st) (to_left st) (to_right st)
              l (coins st) (score st) (player_lives st) (missed_coins st)
  end.

Definition set_player_x (x : Z) (st : State) : State :=
  mkState x (player_y st) (to_left st) (to_right st)
          (monsters st) (coins st) (score st) (player_lives st) (missed_coins st).

Definition set_to_left (b : bool) (st : State) : State :=
  mkState (player_x st) (player_y st) b (to_right st)
          (monsters st) (coins st) (score st) (player_lives st) (missed_coins st).

Definition set_to_right (b : bool) (st : State) : State :=
  mkState (player_x st) (player_y st) (to_left st) b
          (monsters st) (coins st) (score st) (player_lives st) (missed_coins st).

Definition set_score (s : Z) (st : State) : State :=
  mkState (player_x st) (player_y st) (to_left st) (to_right st)
          (monsters st) (coins st) s (player_lives st) (missed_coins st).

Definition set_player_lives (n : Z) (st : State) : State :=
  mkState (player_x st) (player_y st) (to_left st) (to_right st)
          (monsters st) (coins st) (score st) n (missed_coins st).

Definition set_missed_coins (n : Z) (st : State) : State :=
  mkState (player_x st) (player_y st) (to_left st) (to_right st)
          (monsters st) (coins st) (score st) (player_lives st) n.

(** ** Rectangles *)

Record Rect := mkRect { r_left : Z; r_top : Z; r_width : Z; r_height : Z }.

(** [image.get_rect(topleft=(x, y))]. *)
Definition get_rect (img : Image) (topleft : Pos) : Rect :=
  mkRect (fst topleft) (snd topleft) (get_width img) (get_height img).

(** Modelled from the spec: [Rect.colliderect] belongs to pygame, which is
    not part of the repository.  Two rectangles overlap when
    [a.left < b.right && a.right > b.left && a.top < b.bottom &&
    a.bottom > b.top]. *)
Definition colliderect (a b : Rect) : bool :=
  (r_left a <? r_left b + r_width b) && (r_left b <? r_left a + r_width a) &&
  (r_top a <? r_top b + r_height b) && (r_top b <? r_top a + r_height a).

(** ** Player *)

(** [move_player]: both tests read the position as it is when they run. *)
Definition move_player (cfg : Config) (st : State) : State :=
  let st1 :=
    if to_right st && (player_x st + get_width (images cfg robot) <? display_width cfg)
    then set_player_x (player_x st + 2) st else st in
  if to_left st1 && (0 <? player_x st1)
  then set_player_x (player_x st1 - 2) st1 else st1.

(** [reset_player_position]. *)
Definition reset_player_position (cfg : Config) (st : State) : State :=
  mkState 0 (display_height cfg - get_height (images cfg robot)) false false
          (monsters st) (coins st) (score st) (player_lives st) (missed_coins st).

(** [new_game]. *)
Definition new_game (cfg : Config) (st : State) : State :=
  let st1 := reset_player_position cfg st in
  let st2 := set_objects Monsters [] st1 in
  let st3 := set_objects Coins [] st2 in
  set_missed_coins 0 (set_player_lives 3 (set_score 0 st3)).

(** [game_over]. *)
Definition game_over (st : State) : bool := player_lives st =? 0.

(** ** Falling objects *)

(** [objects.pop(i)] and [objects[i] = v] on the aliased list.  The loop
    only uses them at an index it has just read, so the out-of-range
    behaviour of Python ([IndexError]) never arises. *)
Definition pop (r : ListRef) (i : nat) (st : State) : State :=
  set_objects r (delete i (objects_of r st)) st.

Definition set_item (r : ListRef) (i : nat) (v : Pos) (st : State) : State :=
  set_objects r (<[i := v]> (objects_of r st)) st.

(** The name bound to [image] at the top of [move_objects]. *)
Definition image_of (is_coin : bool) : ImageName :=
  if is_coin then coin else monster.

(** The increment of line 131, read from the state at the moment of the
    update; [//] is floor division, as [Z.div] by a positive number. *)
Definition fall_speed (cfg : Config) (is_coin : bool) (st : State) : Z :=
  if is_coin then velocity_y cfg
  else velocity_y cfg * 2 + missed_coins st / 2.

(** The rectangle of the robot, rebuilt at every iteration from the
    current [player_x], [player_y]. *)
Definition robot_rect (cfg : Config) (st : State) : Rect :=
  get_rect (images cfg robot) (player_x st, player_y st).

(** One iteration of the [for] loop of [move_objects], for the index [i]
    and the tuple [(x, y)] that [enumerate] has just produced. *)
Definition visit (cfg : Config) (r : ListRef) (is_coin : bool)
    (i : nat) (o : Pos) (st : State) : State :=
  let '(x, y) := o in
  let img := images cfg (image_of is_coin) in
  if display_height cfg <=? y - get_height img then
    let st1 := if is_coin then set_missed_coins (missed_coins st + 1) st else st in
    pop r i st1
  else
    if colliderect (get_rect img (x, y)) (robot_rect cfg st) then
      let st1 :=
        if is_coin then set_score (score st + 1) st
        else let st' := reset_player_position cfg st in
             set_player_lives (player_lives st' - 1) st' in
      pop r i st1
    else
      set_item r i (x, y + fall_speed cfg is_coin st) st.

(** The [for i, (x, y) in enumerate(objects)] loop.  Python's list iterator
    keeps an index into the live list: at each round it stops if the index
    is no longer below the current length, and otherwise yields the element
    at that index and moves on by one, whatever the body did to the list.
    [enumerate] counts the rounds, so [i] is that very index.  The list
    never grows, hence [fuel] equal to its length at entry is enough
    ([for_enumerate_fuel] below). *)
Fixpoint for_enumerate (cfg : Config) (r : ListRef) (is_coin : bool)
    (fuel : nat) (i : nat) (st : State) : State :=
  match fuel with
  | O => st
  | S fuel' =>
      match objects_of r st !! i with
      | None => st
      | Some o => for_enumerate cfg r is_coin fuel' (S i) (visit cfg r is_coin i o st)
      end
  end.

(** [move_objects(objects)]; [objects == self.coins] compares the two
    lists by value. *)
Definition move_objects (cfg : Config) (r : ListRef) (st : State) : State :=
  let is_coin := bool_decide (objects_of r st = coins st) in
  if bool_decide (objects_of r st <> []) then
    for_enumerate cfg r is_coin (length (objects_of r st)) 0 st
  else st.

(** ** Spawning *)

(** How a call ends: normally, by [exit()] or by an exception of
    [randint]. *)
Inductive Outcome (A : Type) :=
  | Continue (a : A)
  | SystemExit
  | ValueError.
Arguments Continue {A} a.
Arguments SystemExit {A}.
Arguments ValueError {A}.

#[global] Instance outcome_bind : MBind Outcome := fun A B k m =>
  match m with
  | Continue a => k a
  | SystemExit => SystemExit
  | ValueError => ValueError
  end.

(** Modelled from the spec: [random.randint] belongs to Python's library.
    [randint(a, b)] returns an integer [N] with [a <= N <= b] and raises
    [ValueError] on an empty range; [raw] is the entropy the call
    consumes, every value of the range being obtained for some [raw]. *)
Definition randint (a b : Z) (raw : Z) : Outcome Z :=
  if a <=? b then Continue (a + raw mod (b - a + 1)) else ValueError.

(** [generate_image(image_positions, image, prob)]; [draw] is the value of
    [random()] and [raw] feeds [randint]. *)
Definition generate_image (cfg : Config) (r : ListRef) (image : Image) (prob : Q)
    (draw : Q) (raw : Z) (st : State) : Outcome State :=
  if Qle_bool draw prob then
    x ← randint 0 (display_width cfg - get_width image) raw;
    let y := - get_height image in
    Continue (set_objects r (objects_of r st ++ [(x, y)]) st)
  else Continue st.

(** ** Events and the game loop *)

Inductive Key := K_LEFT | K_RIGHT | K_F1 | K_ESCAPE | K_other.

Inductive Event :=
  | KEYDOWN (k : Key)
  | KEYUP (k : Key)
  | QUIT
  | other_event.

Definition handle_event (cfg : Config) (e : Event) (st : State) : Outcome State :=
  match e with
  | KEYDOWN K_LEFT => Continue (set_to_left true st)
  | KEYDOWN K_RIGHT => Continue (set_to_right true st)
  | KEYDOWN K_F1 => Continue (new_game cfg st)
  | KEYDOWN K_ESCAPE => SystemExit
  | KEYDOWN K_other => Continue st
  | KEYUP K_LEFT => Continue (set_to_left false st)
  | KEYUP K_RIGHT => Continue (set_to_right false st)
  | KEYUP _ => Continue st
  | QUIT => SystemExit
  | other_event => Continue st
  end.

(** [examine_events], over the events returned by [pygame.event.get()]. *)
Fixpoint examine_events (cfg : Config) (evs : list Event) (st : State) : Outcome State :=
  match evs with
  | [] => Continue st
  | e :: evs' => st' ← handle_event cfg e st; examine_events cfg evs' st'
  end.

(** What one round of [while True] reads from outside: the pending events,
    the two readings of [pygame.time.get_ticks()] and the random draws. *)
Record Frame := mkFrame {
  events : list Event;
  ticks : Z;
  coin_draw : Q;
  coin_raw : Z;
  monster_draw : Q;
  monster_raw : Z;
  ticks_after : Z
}.

(** One round of the loop of [game_loop]; the second component is the
    local variable [time]. *)
Definition game_loop_body (cfg : Config) (f : Frame) (s : State * Z) : Outcome (State * Z) :=
  let '(st, time) := s in
  st1 ← examine_events cfg (events f) st;
  if negb (game_over st1) then
    '(st2, time') ←
      (if 1000 <? ticks f - time then
         a ← generate_image cfg Coins (images cfg coin) (1 # 4)
                (coin_draw f) (coin_raw f) st1;
         b ← generate_image cfg Monsters (images cfg monster) (1 # 2)
                (monster_draw f) (monster_raw f) a;
         Continue (b, ticks_after f)
       else Continue (st1, time));
    let st3 := move_player cfg st2 in
    let st4 := move_objects cfg Coins st3 in
    let st5 := move_objects cfg Monsters st4 in
    Continue (st5, time')
  else Continue (st1, time).

(** The first [frames] rounds of the loop. *)
Fixpoint game_loop (cfg : Config) (frames : list Frame) (s : State * Z) : Outcome (State * Z) :=
  match frames with
  | [] => Continue s
  | f :: frames' => s' ← game_loop_body cfg f s; game_loop cfg frames' s'
  end.

(** The window and sprites used in the examples: the default 640 x 480
    display, a 50 x 86 robot, 40 x 40 coins and 50 x 70 monsters. *)
Definition sprites (n : ImageName) : Image :=
  match n with
  | robot => mkImage 50 86
  | coin => mkImage 40 40
  | monster => mkImage 50 70
  end.

Definition default_config : Config := init_config 640 480 sprites.

(** The state [__init__] leaves behind: [new_game] assigns every attribute
    of [State], so the argument it starts from does not matter. *)
Definition blank : State := mkState 0 0 false false [] [] 0 0 0.

Definition initial (cfg : Config) : State := new_game cfg blank.

(** * Vocabulary of the properties *)

(** The attributes the freeze is about. *)
Definition same_simulation (a b : State) : Prop :=
  score a = score b /\ missed_coins a = missed_coins b /\
  coins a = coins b /\ monsters a = monsters b /\
  player_x a = player_x b /\ player_y a = player_y b /\
  player_lives a = player_lives b.

Definition is_restart (e : Event) : bool :=
  match e with KEYDOWN K_F1 => true | _ => false end.

Definition is_quit (e : Event) : bool :=
  match e with KEYDOWN K_ESCAPE | QUIT => true | _ => false end.

Definition no_restart (f : Frame) : Prop := Forall (fun e => is_restart e = false) (events f).

Definition asks_quit (f : Frame) : Prop := Exists (fun e => is_quit e = true) (events f).


(** The three ways a visit ends. *)
Definition off_screen (cfg : Config) (is_coin : bool) (o : Pos) : bool :=
  display_height cfg <=? snd o - get_height (images cfg (image_of is_coin)).

Definition hits (cfg : Config) (is_coin : bool) (o : Pos) (st : State) : bool :=
  negb (off_screen cfg is_coin o) &&
  colliderect (get_rect (images cfg (image_of is_coin)) o) (robot_rect cfg st).

(** The coin of [st] is gone after [n] calls on the coins, and one more
    coin has been missed. *)
Definition removed_and_missed (cfg : Config) (n : nat) (st : State) : Prop :=
  coins (Nat.iter n (move_objects cfg Coins) st) = [] /\
  missed_coins (Nat.iter n (move_objects cfg Coins) st) = missed_coins st + 1.


(** [player_x] is even, not negative, and at most one pixel past
    [display_width - robot width]. *)
Definition near_bounds (cfg : Config) (st : State) : Prop :=
  Z.even (player_x st) = true /\
  0 <= player_x st /\
  (player_x st = 0 \/ player_x st <= display_width cfg - get_width (images cfg robot) + 1).

(** The rounds of the loop: the index and the tuple [enumerate] yields,
    and the state in which the body runs, so the [robot_rect] it tests
    against.  Same recursion as [for_enumerate]. *)
Fixpoint visit_log (cfg : Config) (r : ListRef) (is_coin : bool)
    (fuel : nat) (i : nat) (st : State) : list (nat * Pos * State) :=
  match fuel with
  | O => []
  | S fuel' =>
      match objects_of r st !! i with
      | None => []
      | Some o => (i, o, st) :: visit_log cfg r is_coin fuel' (S i) (visit cfg r is_coin i o st)
      end
  end.

(** The state after the last logged round, or [st] if there was none. *)
Definition after_log (cfg : Config) (r : ListRef) (is_coin : bool)
    (st : State) (log : list (nat * Pos * State)) : State :=
  match last log with
  | Some (i, o, s) => visit cfg r is_coin i o s
  | None => st
  end.

(** The robot where [reset_player_position] puts it. *)
Definition at_reset (cfg : Config) (st : State) : Prop :=
  player_x st = 0 /\
  player_y st = display_height cfg - get_height (images cfg robot) /\
  to_left st = false /\ to_right st = false.

(** A visit removes its object when it is off the screen or on the
    robot. *)
Definition removes (cfg : Config) (is_coin : bool) (o : Pos) (st : State) : bool :=
  off_screen cfg is_coin o || hits cfg is_coin o st.

(** What a visit does to the attributes other than the list it works on:
    the branches of [visit] with the list operations left out. *)
Definition effect (cfg : Config) (is_coin : bool) (o : Pos) (st : State) : State :=
  if off_screen cfg is_coin o then
    if is_coin then set_missed_coins (missed_coins st + 1) st else st
  else if hits cfg is_coin o st then
    if is_coin then set_score (score st + 1) st
    else set_player_lives (player_lives st - 1) (reset_player_position cfg st)
  else st.

(** The tuple a visit writes back when it removes nothing. *)
Definition moved (cfg : Config) (is_coin : bool) (o : Pos) (st : State) : Pos :=
  (fst o, snd o + fall_speed cfg is_coin st).

(** One pass from left to right over a list of objects: an object that is
    not removed is moved; after a removed object the next one, if any, is
    copied as it is and is not looked at.  Returns the new list and the
    state for the other attributes. *)
Fixpoint sweep (cfg : Config) (is_coin : bool) (l : list Pos) (st : State)
    : list Pos * State :=
  match l with
  | [] => ([], st)
  | o :: rest =>
      let st' := effect cfg is_coin o st in
      if removes cfg is_coin o st then
        match rest with
        | [] => ([], st')
        | next :: rest' =>
            let '(l', st'') := sweep cfg is_coin rest' st' in (next :: l', st'')
        end
      else
        let '(l', st'') := sweep cfg is_coin rest st' in
        (moved cfg is_coin o st :: l', st'')
  end.

(** How an object left by a call relates to the object it was: the same,
    or moved down by [speed]. *)
Definition same_or_fallen (speed : Z) (before after : Pos) : Prop :=
  after = before \/ after = (fst before, snd before + speed).

(** The lists and counters of a state reached in play: coins and monsters
    lie between the left and right edges, not above their spawn height,
    coins not further down than a call can take them; the score and the
    missed coins are not negative and there are at most three lives; the
    robot stands on the bottom edge. *)
Definition coin_in_range (cfg : Config) (o : Pos) : Prop :=
  0 <= fst o <= display_width cfg - get_width (images cfg coin) /\
  - get_height (images cfg coin) <= snd o
    < display_height cfg + get_height (images cfg coin) + velocity_y cfg.

Definition monster_in_range (cfg : Config) (o : Pos) : Prop :=
  0 <= fst o <= display_width cfg - get_width (images cfg monster) /\
  - get_height (images cfg monster) <= snd o.

Definition in_play (cfg : Config) (st : State) : Prop :=
  Forall (coin_in_range cfg) (coins st) /\
  Forall (monster_in_range cfg) (monsters st) /\
  0 <= score st /\ 0 <= missed_coins st /\ player_lives st <= 3 /\
  player_y st = display_height cfg - get_height (images cfg robot).

(** The number of steps to the right the robot can take from [x] before
    [x + width < display_width] fails. *)
Definition steps_right (cfg : Config) (x : Z) : Z :=
  Z.max 0 ((display_width cfg - get_width (images cfg robot) - x + 1) / 2).

(** * Configurations, states and runs used as examples *)

(** Two coins that have both gone a full sprite below the screen. *)
Definition two_fallen_coins : State :=
  mkState 300 394 false false [] [(10, 520); (200, 520)] 0 3 0.


(** The scenario on the default display with 20 x 20 coins. *)
Definition small_coin_sprites (n : ImageName) : Image :=
  match n with coin => mkImage 20 20 | _ => sprites n end.

Definition small_coin_config : Config := init_config 640 480 small_coin_sprites.

Definition fresh_coin : State :=
  mkState 300 394 false false [] [(100, -20)] 0 3 0.

(** Frames of the examples: nothing is spawned unless said otherwise. *)
Definition idle_at (t : Z) : Frame := mkFrame [] t 1 0 1 0 t.

Definition keys_at (evs : list Event) (t : Z) : Frame := mkFrame evs t 1 0 1 0 t.

Definition monster_at (evs : list Event) (t : Z) (x : Z) : Frame := mkFrame evs t 1 0 0 x t.

Definition coin_at (evs : list Event) (t : Z) (x : Z) : Frame := mkFrame evs t 0 x 1 0 t.

(** A coin and a monster with the same coordinates, as the second call of
    a frame can find them. *)
Definition twin_lists : State :=
  mkState 0 394 false false [(100, 110)] [(100, 110)] 0 3 0.

(** Play at 60 frames a second (17 ms a frame): a coin spawned in the
    first second and a monster in the second one, both at [x = 100]. *)
Definition frame60 (k : nat) : Frame :=
  let t := 17 * Z.of_nat k in
  if (k =? 59)%nat then coin_at [] t 100
  else if (k =? 118)%nat then monster_at [] t 100
  else idle_at t.

Definition play60 (n : nat) : list Frame := map frame60 (seq 1 n).

(** One life left, a monster on the robot and another one at the left
    edge, where [reset_player_position] will put the robot. *)
Definition last_life : State :=
  mkState 60 394 false false [(60, 400); (300, 0); (0, 400)] [] 0 1 0.

(** Seven monsters spawned in consecutive frames (more than a second
    each) while the robot walks to [x = 100]; 212 frames in, the robot
    steps into the first monster. *)
Definition four_hits : list Frame :=
  [monster_at [KEYDOWN K_RIGHT] 1001 152; monster_at [] 2002 400;
   monster_at [] 3003 0; monster_at [] 4004 400; monster_at [] 5005 0;
   monster_at [] 6006 400; monster_at [] 7007 0]
  ++ repeat (idle_at 7007) 43 ++ [keys_at [KEYUP K_RIGHT] 7007]
  ++ repeat (idle_at 7007) 159
  ++ [keys_at [KEYDOWN K_RIGHT] 7007; idle_at 7007].

(** A display whose width leaves the robot an odd number of pixels. *)
Definition odd_width_config : Config := init_config 641 480 sprites.

(** The monsters of [last_life] once more, with lives to spare. *)
Definition two_monsters_apart : State :=
  mkState 60 394 false false [(60, 400); (300, 0); (0, 400)] [] 0 3 0.

(** A state with no life left, and frames that press keys but ask for no
    new game. *)
Definition no_life : State :=
  mkState 120 394 false true [(0, 100)] [(300, 200); (20, 30)] 7 0 4.

Definition frames_after_game_over : list Frame :=
  [keys_at [KEYDOWN K_LEFT] 5000; monster_at [KEYUP K_LEFT; KEYDOWN K_RIGHT] 9000 17;
   coin_at [other_event; KEYDOWN K_other] 12000 300].

(** The state after a first frame that spawns a monster at [x = 7]. *)
Definition first_monster : State :=
  mkState 0 394 false false [(7, -68)] [] 0 3 0.

(** Three coins and three monsters that have come to hold the same tuples,
    the first pair reaching the robot, which stands at [x = 110]. *)
Definition twins_on_robot : State :=
  mkState 110 394 false false [(100, 355); (300, 237); (0, 119)]
          [(100, 355); (300, 237); (0, 119)] 0 3 0.

(** Play at 60 frames a second in which the robot walks to [x = 110] and
    coins and monsters are spawned at seconds 1, 3, 5 and 3, 4, 5, pair by
    pair at the same [x]. *)
Definition twin_frame (k : nat) : Frame :=
  let t := 17 * Z.of_nat k in
  let evs := if (k =? 1)%nat then [KEYDOWN K_RIGHT]
             else if (k =? 56)%nat then [KEYUP K_RIGHT] else [] in
  if (k =? 59)%nat then mkFrame evs t 0 100 1 0 t
  else if (k =? 177)%nat then mkFrame evs t 0 300 0 100 t
  else if (k =? 236)%nat then mkFrame evs t 1 0 0 300 t
  else if (k =? 295)%nat then mkFrame evs t 0 0 0 0 t
  else mkFrame evs t 1 0 1 0 t.

Definition twin_play (n : nat) : list Frame := map twin_frame (seq 1 n).

(** * Properties *)

(** ** The setters touch one attribute each *)

Lemma objects_of_set_objects r l st : objects_of r (set_objects r l st) = l.
Proof. by destruct r. Qed.

Lemma objects_of_set_objects_ne r r' l st :
  r <> r' -> objects_of r' (set_objects r l st) = objects_of r' st.
Proof. by destruct r, r'. Qed.

Lemma set_objects_id r st : set_objects r (objects_of r st) st = st.
Proof. by destruct r, st. Qed.

Lemma new_game_any cfg st st' : new_game cfg st = new_game cfg st'.
Proof. reflexivity. Qed.

(** ** New game *)

(** C7.  [new_game], from any state at all (after a game over or not),
    gives three lives, score 0, no missed coin, no coin and no monster, and
    puts the robot at [(0, display_height - robot height)] with both
    movement flags cleared. *)
Theorem new_game_resets cfg st :
  let st' := new_game cfg st in
  player_lives st' = 3 /\ score st' = 0 /\ missed_coins st' = 0 /\
  coins st' = [] /\ monsters st' = [] /\
  player_x st' = 0 /\
  player_y st' = display_height cfg - get_height (images cfg robot) /\
  to_left st' = false /\ to_right st' = false.
Proof. cbn. repeat split. Qed.

(** The restart key reaches [new_game] whatever the state, game over
    included. *)
Lemma restart_key_new_game cfg st :
  examine_events cfg [KEYDOWN K_F1] st = Continue (initial cfg).
Proof. reflexivity. Qed.

(** ** Game over freezes the simulation *)

#[local] Instance same_simulation_refl : Reflexive same_simulation.
Proof. by intros st. Qed.

#[local] Instance same_simulation_trans : Transitive same_simulation.
Proof. intros a b c. unfold same_simulation. intuition congruence. Qed.

Lemma handle_event_frozen cfg e st :
  is_restart e = false ->
  match handle_event cfg e st with
  | Continue st' => same_simulation st st'
  | SystemExit => is_quit e = true
  | ValueError => False
  end.
Proof. destruct e as [[]|[]| |]; cbn; try done. Qed.

Lemma examine_events_frozen cfg evs : forall st,
  Forall (fun e => is_restart e = false) evs ->
  match examine_events cfg evs st with
  | Continue st' => same_simulation st st'
  | SystemExit => Exists (fun e => is_quit e = true) evs
  | ValueError => False
  end.
Proof.
  induction evs as [|e evs IH]; intros st Hno; cbn.
  - reflexivity.
  - inversion_clear Hno as [|? ? He Hevs].
    pose proof (handle_event_frozen cfg e st He) as Hh.
    destruct (handle_event cfg e st) as [st1| |]; cbn.
    + specialize (IH st1 Hevs).
      destruct (examine_events cfg evs st1) as [st2| |]; [|by right|done].
      by transitivity st1.
    + by left.
    + done.
Qed.

Lemma game_over_same a b : same_simulation a b -> game_over b = game_over a.
Proof. intros (_ & _ & _ & _ & _ & _ & Hl). unfold game_over. by rewrite Hl. Qed.

Lemma game_loop_body_frozen cfg f st time :
  game_over st = true -> no_restart f ->
  match game_loop_body cfg f (st, time) with
  | Continue (st', time') => same_simulation st st' /\ time' = time
  | SystemExit => asks_quit f
  | ValueError => False
  end.
Proof.
  intros Hover Hno. unfold game_loop_body.
  pose proof (examine_events_frozen cfg (events f) st Hno) as He.
  destruct (examine_events cfg (events f) st) as [st1| |]; cbn; try done.
  by rewrite (game_over_same _ _ He), Hover.
Qed.

(** C6.  Once [player_lives] is 0, any number of rounds of the loop whose
    events hold no restart request leave the score, the missed coins, both
    lists and the position of the robot as they were (and the game stays
    over); the run can only end early because an event asked to quit. *)
Theorem game_over_freeze cfg frames : forall st time,
  game_over st = true ->
  Forall no_restart frames ->
  match game_loop cfg frames (st, time) with
  | Continue (st', time') =>
      score st' = score st /\ missed_coins st' = missed_coins st /\
      coins st' = coins st /\ monsters st' = monsters st /\
      player_x st' = player_x st /\ player_y st' = player_y st /\
      game_over st' = true
  | SystemExit => Exists asks_quit frames
  | ValueError => False
  end.
Proof.
  induction frames as [|f frames IH]; intros st time Hover Hno.
  - cbn. by rewrite Hover.
  - inversion_clear Hno as [|? ? Hf Hfs].
    pose proof (game_loop_body_frozen cfg f st time Hover Hf) as Hb.
    change (game_loop cfg (f :: frames) (st, time))
      with (game_loop_body cfg f (st, time) ≫= game_loop cfg frames).
    destruct (game_loop_body cfg f (st, time)) as [[st1 time1]| |]; cbn.
    + destruct Hb as [Hsame ->].
      assert (game_over st1 = true) as Hover1 by by rewrite (game_over_same _ _ Hsame).
      specialize (IH st1 time Hover1 Hfs).
      destruct (game_loop cfg frames (st1, time)) as [[st2 time2]| |].
      * destruct Hsame as (?&?&?&?&?&?&?), IH as (?&?&?&?&?&?&?).
        repeat split; congruence.
      * by right.
      * done.
    + by left.
    + done.
Qed.

(** ** Spawning *)

Lemma randint_range a b raw :
  a <= b -> exists n, randint a b raw = Continue n /\ a <= n <= b.
Proof.
  intros Hab. unfold randint. rewrite (Zle_imp_le_bool _ _ Hab).
  eexists; split; [reflexivity|].
  pose proof (Z.mod_pos_bound raw (b - a + 1)). lia.
Qed.

(** Every integer of the range is the result of some draw. *)
Lemma randint_onto a b n : a <= n <= b -> randint a b (n - a) = Continue n.
Proof.
  intros Hn. unfold randint. rewrite (Zle_imp_le_bool a b) by lia.
  rewrite Z.mod_small by lia. f_equal. lia.
Qed.

Lemma randint_empty a b raw : b < a -> randint a b raw = ValueError.
Proof. intros Hab. unfold randint. by rewrite (proj2 (Z.leb_gt a b)). Qed.



(** X17.  On a display narrower than the image the range of [randint] is
    empty and a successful draw raises [ValueError]. *)
Lemma generate_image_narrow cfg r image prob draw raw st :
  display_width cfg < get_width image -> (draw <= prob)%Q ->
  generate_image cfg r image prob draw raw st = ValueError.
Proof.
  intros Hw Hdraw. unfold generate_image.
  rewrite (proj2 (Qle_bool_iff _ _) Hdraw), randint_empty by lia. done.
Qed.

(** ** The loop of [move_objects] *)

Lemma visit_off_screen cfg r is_coin i o st :
  off_screen cfg is_coin o = true ->
  visit cfg r is_coin i o st =
    pop r i (if is_coin then set_missed_coins (missed_coins st + 1) st else st).
Proof. destruct o as [x y]. unfold off_screen, visit. cbn. by intros ->. Qed.

Lemma visit_hits cfg r is_coin i o st :
  hits cfg is_coin o st = true ->
  visit cfg r is_coin i o st =
    pop r i (if is_coin then set_score (score st + 1) st
             else set_player_lives (player_lives st - 1) (reset_player_position cfg st)).
Proof.
  destruct o as [x y]. unfold hits, off_screen, visit. cbn.
  destruct (display_height cfg <=? _); [done|]. cbn. by intros ->.
Qed.

Lemma visit_falls cfg r is_coin i o st :
  off_screen cfg is_coin o = false -> hits cfg is_coin o st = false ->
  visit cfg r is_coin i o st =
    set_item r i (fst o, snd o + fall_speed cfg is_coin st) st.
Proof.
  destruct o as [x y]. unfold hits, off_screen, visit. cbn.
  intros ->. cbn. by intros ->.
Qed.

(** The case analysis every proof about [visit] starts with. *)
Lemma visit_cases cfg r is_coin i o st :
  (off_screen cfg is_coin o = true /\
   visit cfg r is_coin i o st =
     pop r i (if is_coin then set_missed_coins (missed_coins st + 1) st else st)) \/
  (off_screen cfg is_coin o = false /\ hits cfg is_coin o st = true /\
   visit cfg r is_coin i o st =
     pop r i (if is_coin then set_score (score st + 1) st
              else set_player_lives (player_lives st - 1) (reset_player_position cfg st))) \/
  (off_screen cfg is_coin o = false /\ hits cfg is_coin o st = false /\
   visit cfg r is_coin i o st =
     set_item r i (fst o, snd o + fall_speed cfg is_coin st) st).
Proof.
  destruct (off_screen cfg is_coin o) eqn:Hoff.
  - left. split; [done|]. by apply visit_off_screen.
  - right. destruct (hits cfg is_coin o st) eqn:Hhit.
    + left. repeat split. by apply visit_hits.
    + right. repeat split. by apply visit_falls.
Qed.

Lemma objects_of_pop r i st : objects_of r (pop r i st) = delete i (objects_of r st).
Proof. unfold pop. apply objects_of_set_objects. Qed.

Lemma objects_of_set_item r i v st :
  objects_of r (set_item r i v st) = <[i := v]> (objects_of r st).
Proof. unfold set_item. apply objects_of_set_objects. Qed.

(** The list a visit leaves: one element fewer, or one element changed. *)
Lemma visit_objects cfg r is_coin i o st :
  objects_of r (visit cfg r is_coin i o st) =
    if off_screen cfg is_coin o || hits cfg is_coin o st
    then delete i (objects_of r st)
    else <[i := (fst o, snd o + fall_speed cfg is_coin st)]> (objects_of r st).
Proof.
  destruct (visit_cases cfg r is_coin i o st)
    as [(-> & ->)|[(-> & -> & ->)|(-> & -> & ->)]]; cbn.
  - rewrite objects_of_pop. by destruct is_coin, r.
  - rewrite objects_of_pop. by destruct is_coin, r.
  - apply objects_of_set_item.
Qed.

Lemma visit_length cfg r is_coin i o st :
  (length (objects_of r (visit cfg r is_coin i o st)) <= length (objects_of r st))%nat.
Proof.
  rewrite visit_objects. destruct (_ || _).
  - apply sublist_length, sublist_delete.
  - by rewrite length_insert.
Qed.

(** The loop ends because the iterator runs off the list, not for lack of
    fuel: any fuel from the remaining length on gives the same state. *)
Lemma for_enumerate_fuel cfg r is_coin : forall fuel fuel' i st,
  (length (objects_of r st) - i <= fuel)%nat ->
  (length (objects_of r st) - i <= fuel')%nat ->
  for_enumerate cfg r is_coin fuel i st = for_enumerate cfg r is_coin fuel' i st.
Proof.
  induction fuel as [|fuel IH]; intros fuel' i st Hf Hf'.
  - destruct fuel' as [|fuel']; [done|]. cbn.
    rewrite lookup_ge_None_2; [done|lia].
  - cbn. destruct (objects_of r st !! i) as [o|] eqn:Hi.
    + pose proof (lookup_lt_Some _ _ _ Hi) as Hlt.
      pose proof (visit_length cfg r is_coin i o st) as Hlen.
      destruct fuel' as [|fuel']; [lia|]. cbn. rewrite Hi.
      apply IH; lia.
    + destruct fuel' as [|fuel']; [done|]. cbn. by rewrite Hi.
Qed.

(** A property kept by every visit is kept by the loop. *)
Lemma for_enumerate_invariant cfg r is_coin (P : State -> Prop) :
  (forall i o st, objects_of r st !! i = Some o -> P st -> P (visit cfg r is_coin i o st)) ->
  forall fuel i st, P st -> P (for_enumerate cfg r is_coin fuel i st).
Proof.
  intros Hvisit. induction fuel as [|fuel IH]; intros i st HP; cbn; [done|].
  destruct (objects_of r st !! i) as [o|] eqn:Hi; [|done].
  apply IH. by apply Hvisit.
Qed.

Lemma move_objects_invariant cfg r (P : State -> Prop) st :
  (forall is_coin i o st, objects_of r st !! i = Some o -> P st -> P (visit cfg r is_coin i o st)) ->
  P st -> P (move_objects cfg r st).
Proof.
  intros Hvisit HP. unfold move_objects. case_bool_decide; [|done].
  apply for_enumerate_invariant; [|done]. apply Hvisit.
Qed.

(** The first call of the frame is on [self.coins] itself. *)
Lemma move_objects_coins cfg st :
  move_objects cfg Coins st = for_enumerate cfg Coins true (length (coins st)) 0 st.
Proof.
  unfold move_objects, objects_of. rewrite (bool_decide_eq_true_2 (coins st = coins st)) by done.
  case_bool_decide as Hnil; [done|].
  by rewrite Hnil.
Qed.

(** The second call treats [self.monsters] as monsters unless the two
    lists hold the same tuples. *)
Lemma move_objects_monsters cfg st :
  monsters st <> coins st ->
  move_objects cfg Monsters st = for_enumerate cfg Monsters false (length (monsters st)) 0 st.
Proof.
  intros Hne. unfold move_objects, objects_of.
  rewrite (bool_decide_eq_false_2 (monsters st = coins st)) by done.
  case_bool_decide as Hnil; [done|].
  by rewrite Hnil.
Qed.

(** ** Removal while iterating *)

(** Rounds at later indices leave the earlier elements alone. *)
Lemma for_enumerate_before cfg r is_coin : forall fuel i st k,
  (k < i)%nat ->
  objects_of r (for_enumerate cfg r is_coin fuel i st) !! k = objects_of r st !! k.
Proof.
  induction fuel as [|fuel IH]; intros i st k Hk; cbn; [done|].
  destruct (objects_of r st !! i) as [o|] eqn:Hi; [|done].
  rewrite IH by lia. rewrite visit_objects. destruct (_ || _).
  - by rewrite list_lookup_delete_lt.
  - rewrite list_lookup_insert_ne; [done|lia].
Qed.

(** X16.  After a removal at index [i] the element that followed slides
    into index [i], the iterator moves to [i + 1], and that element ends
    the call exactly as it was: it is neither tested nor moved. *)
Lemma removal_skips_next cfg r is_coin fuel i st a b :
  objects_of r st !! i = Some a ->
  objects_of r st !! S i = Some b ->
  off_screen cfg is_coin a || hits cfg is_coin a st = true ->
  objects_of r (for_enumerate cfg r is_coin (S fuel) i st) !! i = Some b.
Proof.
  intros Ha Hb Hrm. cbn. rewrite Ha, for_enumerate_before by lia.
  rewrite visit_objects, Hrm. by rewrite list_lookup_delete_ge.
Qed.

(** What survives is a subsequence of what was there, in the same order
    (compared on the [x] coordinates, which no visit changes). *)
Lemma visit_keeps_order cfg r is_coin i o st :
  objects_of r st !! i = Some o ->
  (objects_of r (visit cfg r is_coin i o st)).*1 `sublist_of` (objects_of r st).*1.
Proof.
  intros Hi. rewrite visit_objects. destruct (_ || _).
  - rewrite list_fmap_delete. apply sublist_delete.
  - rewrite list_fmap_insert, list_insert_id; [done|].
    by rewrite list_lookup_fmap, Hi.
Qed.

Lemma move_objects_keeps_order cfg r st :
  (objects_of r (move_objects cfg r st)).*1 `sublist_of` (objects_of r st).*1.
Proof.
  apply (move_objects_invariant cfg r
           (fun s => (objects_of r s).*1 `sublist_of` (objects_of r st).*1)); [|done].
  intros is_coin i o s Hi Hs. etrans; [|exact Hs]. by apply visit_keeps_order.
Qed.

(** C1.  The code does not remove consecutive fallen objects in one call:
    of two coins that are both off the screen, [move_objects] visits and
    removes the first, counts one missed coin, never visits the second
    and leaves it in the list. *)
Theorem second_fallen_coin_is_kept :
  Forall (fun o => off_screen default_config true o = true) (coins two_fallen_coins) /\
  visit_log default_config Coins true (length (coins two_fallen_coins)) 0 two_fallen_coins
    = [(0%nat, (10, 520), two_fallen_coins)] /\
  coins (move_objects default_config Coins two_fallen_coins) = [(200, 520)] /\
  missed_coins (move_objects default_config Coins two_fallen_coins) = 1.
Proof. split; [by repeat constructor|]. by vm_compute. Qed.

(** ** Leaving the screen *)



(** The speed is the same all along a call: only a call that handles its
    list as coins counts missed coins, and its speed does not read them. *)
Lemma visit_fall_speed cfg r is_coin i o st :
  fall_speed cfg is_coin (visit cfg r is_coin i o st) = fall_speed cfg is_coin st.
Proof.
  destruct is_coin; [done|]. unfold fall_speed.
  by destruct (visit_cases cfg r false i o st)
    as [(_ & ->)|[(_ & _ & ->)|(_ & _ & ->)]]; destruct r.
Qed.

(** X15.  Over a whole call of [move_objects], for a speed that is not
    negative: if every object of the list lies in
    [[- height, display_height + height + speed)] at entry, every object
    of the list does at exit. *)
Lemma move_objects_range cfg r st :
  let is_coin := bool_decide (objects_of r st = coins st) in
  let h := get_height (images cfg (image_of is_coin)) in
  let s := fall_speed cfg is_coin st in
  let inside (o : Pos) := - h <= snd o < display_height cfg + h + s in
  0 <= s ->
  Forall inside (objects_of r st) ->
  Forall inside (objects_of r (move_objects cfg r st)).
Proof.
  intros is_coin h s inside Hs Hall. unfold move_objects. fold is_coin.
  case_bool_decide; [|done].
  apply (for_enumerate_invariant cfg r is_coin
           (fun s' => fall_speed cfg is_coin s' = s /\ Forall inside (objects_of r s')));
    [|done].
  intros i [x y] s' Hi [Hspeed Hin]. split; [by rewrite visit_fall_speed|].
  pose proof (Forall_lookup_1 _ _ _ _ Hin Hi) as Hxy. unfold inside in Hxy. cbn in Hxy.
  rewrite visit_objects. destruct (off_screen cfg is_coin (x, y)) eqn:Hoff; cbn.
  - by apply Forall_delete.
  - destruct (hits cfg is_coin (x, y) s'); [by apply Forall_delete|].
    apply Forall_insert; [done|]. unfold inside. cbn. rewrite Hspeed.
    unfold off_screen in Hoff. cbn in Hoff. apply Z.leb_gt in Hoff. fold h in Hoff. lia.
Qed.

(** ** A coin falling alone *)

Lemma lone_coin_falls cfg st x y :
  coins st = [(x, y)] ->
  y - get_height (images cfg coin) < display_height cfg ->
  colliderect (get_rect (images cfg coin) (x, y)) (robot_rect cfg st) = false ->
  move_objects cfg Coins st = set_objects Coins [(x, y + velocity_y cfg)] st.
Proof.
  intros Hc Hy Hfree. rewrite move_objects_coins, Hc. cbn [length for_enumerate objects_of].
  rewrite Hc. cbn [lookup list_lookup].
  assert (off_screen cfg true (x, y) = false) as Hoff
    by (unfold off_screen; cbn; by apply Z.leb_gt).
  rewrite visit_falls; [|done|unfold hits; rewrite Hoff; exact Hfree].
  unfold set_item. cbn [objects_of]. by rewrite Hc.
Qed.

Lemma lone_coin_removed cfg st x y :
  coins st = [(x, y)] ->
  display_height cfg <= y - get_height (images cfg coin) ->
  move_objects cfg Coins st =
    set_objects Coins [] (set_missed_coins (missed_coins st + 1) st).
Proof.
  intros Hc Hy. rewrite move_objects_coins, Hc. cbn [length for_enumerate objects_of].
  rewrite Hc. cbn [lookup list_lookup].
  rewrite visit_off_screen by (unfold off_screen; cbn; by apply Z.leb_le).
  unfold pop. cbn [objects_of set_missed_coins coins]. by rewrite Hc.
Qed.

(** The position of a lone coin after [n] calls that neither remove it
    nor find it on the robot. *)
Lemma lone_coin_after cfg st x y0 :
  coins st = [(x, y0)] ->
  (forall y, colliderect (get_rect (images cfg coin) (x, y)) (robot_rect cfg st) = false) ->
  forall n : nat,
    y0 + (Z.of_nat n - 1) * velocity_y cfg - get_height (images cfg coin) < display_height cfg ->
    0 <= velocity_y cfg ->
    Nat.iter n (move_objects cfg Coins) st =
      set_objects Coins [(x, y0 + Z.of_nat n * velocity_y cfg)] st.
Proof.
  intros Hc Hfree. induction n as [|n IH]; intros Hn Hv.
  - unfold Nat.iter. cbn [nat_rect].
    replace (y0 + Z.of_nat 0 * velocity_y cfg) with y0 by lia.
    rewrite <- Hc. exact (eq_sym (set_objects_id Coins st)).
  - rewrite Nat.iter_succ, IH by nia.
    rewrite (lone_coin_falls cfg _ x (y0 + Z.of_nat n * velocity_y cfg)).
    + destruct st. cbn. do 3 f_equal. lia.
    + done.
    + lia.
    + apply Hfree.
Qed.

(** After 500 calls the coin has not been removed and no coin has been
    missed: it is still there, at [y = 480], and the 501st call does not
    remove it either. *)
Lemma coin_still_there_after_500 :
  ~ removed_and_missed small_coin_config 500 fresh_coin /\
  ~ removed_and_missed small_coin_config 501 fresh_coin /\
  coins (Nat.iter 500 (move_objects small_coin_config Coins) fresh_coin) = [(100, 480)] /\
  missed_coins (Nat.iter 500 (move_objects small_coin_config Coins) fresh_coin) = 0 /\
  coins (Nat.iter 501 (move_objects small_coin_config Coins) fresh_coin) = [(100, 481)] /\
  missed_coins (Nat.iter 501 (move_objects small_coin_config Coins) fresh_coin) = 0.
Proof.
  assert (coins (Nat.iter 500 (move_objects small_coin_config Coins) fresh_coin)
            = [(100, 480)]) as H500 by by vm_compute.
  assert (coins (Nat.iter 501 (move_objects small_coin_config Coins) fresh_coin)
            = [(100, 481)]) as H501 by by vm_compute.
  split; [intros [H _]; by rewrite H500 in H|].
  split; [intros [H _]; by rewrite H501 in H|].
  split; [done|]. split; [by vm_compute|]. split; [done|by vm_compute].
Qed.

(** C4 (amended).  A coin spawned at [y = -20] that falls at speed 1 on a
    screen of height 480, with coins 20 high and no collision, is at
    [y = -20 + n] after [n <= 520] calls of [move_objects], the missed
    coins unchanged; the 521st call, which reads [y = 500] and so
    [y - 20 >= 480], removes it and counts exactly one missed coin. *)
Theorem coin_removed_by_call_521 cfg st x :
  display_height cfg = 480 ->
  get_height (images cfg coin) = 20 ->
  velocity_y cfg = 1 ->
  coins st = [(x, -20)] ->
  (forall y, colliderect (get_rect (images cfg coin) (x, y)) (robot_rect cfg st) = false) ->
  (forall n : nat, (n <= 520)%nat ->
     coins (Nat.iter n (move_objects cfg Coins) st) = [(x, -20 + Z.of_nat n)] /\
     missed_coins (Nat.iter n (move_objects cfg Coins) st) = missed_coins st) /\
  removed_and_missed cfg 521 st.
Proof.
  intros HH Hh Hv Hc Hfree. unfold removed_and_missed.
  assert (forall n : nat, (n <= 520)%nat ->
            Nat.iter n (move_objects cfg Coins) st =
              set_objects Coins [(x, -20 + Z.of_nat n)] st) as Hfall.
  { intros n Hn. rewrite (lone_coin_after cfg st x (-20)); try done.
    - do 3 f_equal. lia.
    - lia.
    - lia. }
  split.
  - intros n Hn. by rewrite Hfall.
  - change 521%nat with (S 520). rewrite Nat.iter_succ, Hfall by lia.
    rewrite (lone_coin_removed cfg _ x 500); [done|done|lia].
Qed.

(** ** The speed of monsters *)

Lemma fall_speed_coin cfg st : fall_speed cfg true st = velocity_y cfg.
Proof. reflexivity. Qed.

Lemma fall_speed_monster cfg st :
  fall_speed cfg false st = velocity_y cfg * 2 + missed_coins st / 2.
Proof. reflexivity. Qed.

Lemma fall_speed_monster_examples cfg st :
  (missed_coins st = 0 -> fall_speed cfg false st = velocity_y cfg * 2) /\
  (missed_coins st = 5 -> fall_speed cfg false st = velocity_y cfg * 2 + 2).
Proof. unfold fall_speed. split; intros ->; [rewrite Zdiv_0_l; lia|done]. Qed.

(** As long as the two lists differ, a monster that is neither removed nor
    on the robot moves down by [velocity_y * 2 + missed_coins // 2], and a
    coin by [velocity_y]. *)
Lemma monster_moves_by_formula cfg st i x y :
  objects_of Monsters st !! i = Some (x, y) ->
  off_screen cfg false (x, y) = false -> hits cfg false (x, y) st = false ->
  objects_of Monsters (visit cfg Monsters false i (x, y) st) !! i =
    Some (x, y + (velocity_y cfg * 2 + missed_coins st / 2)).
Proof.
  intros Hi Hoff Hhit. rewrite visit_falls, objects_of_set_item by done.
  apply list_lookup_insert_eq. by eapply lookup_lt_Some.
Qed.

Lemma coin_moves_by_velocity cfg st i x y :
  objects_of Coins st !! i = Some (x, y) ->
  off_screen cfg true (x, y) = false -> hits cfg true (x, y) st = false ->
  objects_of Coins (visit cfg Coins true i (x, y) st) !! i = Some (x, y + velocity_y cfg).
Proof.
  intros Hi Hoff Hhit. rewrite visit_falls, objects_of_set_item by done.
  apply list_lookup_insert_eq. by eapply lookup_lt_Some.
Qed.

(** C8.  The code does not always move monsters at
    [velocity_y * 2 + missed_coins // 2]: when the list of monsters holds
    the same tuples as the list of coins, [objects == self.coins] is true
    in the call on the monsters, and the monster moves by [velocity_y]
    (here 1) where the formula gives 2. *)
Theorem monster_moves_at_coin_speed :
  velocity_y default_config * 2 + missed_coins twin_lists / 2 = 2 /\
  monsters twin_lists = [(100, 110)] /\
  monsters (move_objects default_config Monsters twin_lists) = [(100, 111)].
Proof. by vm_compute. Qed.

(** [twin_lists] arises in play: the monster of [play60] catches up with
    the coin in frame 208, in which the call on the coins leaves the two
    lists equal and the call on the monsters starts from [twin_lists]. *)
Lemma twin_lists_reached :
  exists st time,
    game_loop default_config (play60 207) (initial default_config, 0) = Continue (st, time) /\
    move_objects default_config Coins (move_player default_config st) = twin_lists /\
    game_loop default_config (play60 208) (initial default_config, 0)
      = Continue (move_objects default_config Monsters twin_lists, time).
Proof. do 2 eexists. by vm_compute. Qed.

(** ** Lives *)

(** C5.  The code lets the lives go below zero: with one life left, the
    first monster hits the robot (one life lost, robot sent to [x = 0]),
    the second is skipped, the third is then found on the robot at its new
    place and a second life is taken in the same call.  The lives are -1
    and [game_over], which tests [player_lives == 0], is false. *)
Theorem lives_drop_below_zero :
  player_lives last_life = 1 /\
  player_lives (move_objects default_config Monsters last_life) = -1 /\
  game_over (move_objects default_config Monsters last_life) = false.
Proof. by vm_compute. Qed.

(** A run from the start of the game that ends with -1 lives: in the last
    frame of [four_hits] four monsters hit the robot in one call. *)
Lemma negative_lives_reached :
  game_loop default_config four_hits (initial default_config, 0) =
    Continue (mkState 0 394 false false [(400, 350); (400, 346); (400, 342)] [] 0 (-1) 0,
              7007).
Proof. by vm_compute. Qed.

(** The game then goes on: the next frame still moves the monsters. *)
Lemma negative_lives_not_frozen :
  game_loop default_config (four_hits ++ [idle_at 7007]) (initial default_config, 0) =
    Continue (mkState 0 394 false false [(400, 352); (400, 348); (400, 344)] [] 0 (-1) 0,
              7007).
Proof. by vm_compute. Qed.

(** What does hold: each visit takes at most one life, and none when the
    list is handled as coins. *)
Lemma visit_lives cfg r is_coin i o st :
  player_lives (visit cfg r is_coin i o st) =
    if negb is_coin && hits cfg is_coin o st then player_lives st - 1 else player_lives st.
Proof.
  destruct (visit_cases cfg r is_coin i o st)
    as [(Hoff & ->)|[(_ & -> & ->)|(_ & -> & ->)]].
  - unfold hits. rewrite Hoff. cbn. rewrite andb_false_r. by destruct is_coin, r.
  - by destruct is_coin, r.
  - rewrite andb_false_r. by destruct r.
Qed.

(** ** The robot stays on the screen, up to one pixel *)

(** C3.  The code lets the robot past the right bound: on a display 641
    wide with a robot 50 wide, holding the right key for 296 frames takes
    [player_x] to 592, while [display_width - robot width] is 591. *)
Theorem robot_passes_right_bound :
  display_width odd_width_config - get_width (images odd_width_config robot) = 591 /\
  game_loop odd_width_config (keys_at [KEYDOWN K_RIGHT] 0 :: repeat (idle_at 0) 295)
      (initial odd_width_config, 0) =
    Continue (mkState 592 394 false true [] [] 0 3 0, 0).
Proof. by vm_compute. Qed.

(** What does hold of [player_x] is [near_bounds]. *)
Lemma move_player_near_bounds cfg st : near_bounds cfg st -> near_bounds cfg (move_player cfg st).
Proof.
  intros (Heven & H0 & Hw). unfold near_bounds, move_player.
  assert (Z.even (player_x st + 2) = true) as Hup by by rewrite Z.even_add, Heven.
  assert (Z.even (player_x st - 2) = true) as Hdown by by rewrite Z.even_sub, Heven.
  assert (Z.even (player_x st + 2 - 2) = true) as Hback
    by by replace (player_x st + 2 - 2) with (player_x st) by lia.
  assert (player_x st <> 1) as Hne1 by (intros E; by rewrite E in Heven).
  destruct (to_right st) eqn:Hr, (to_left st) eqn:Hl; cbn;
    repeat (case_match; cbn in *; rewrite ?Hr, ?Hl in *; cbn in *);
    repeat match goal with
           | H : (_ <? _) = true |- _ => apply Z.ltb_lt in H
           | H : (_ <? _) = false |- _ => apply Z.ltb_ge in H
           | H : _ && _ = true |- _ => apply andb_true_iff in H as [? ?]
           end;
    try discriminate; (split; [done|lia]).
Qed.

Lemma near_bounds_player_x cfg st st' :
  player_x st' = player_x st \/ player_x st' = 0 ->
  near_bounds cfg st -> near_bounds cfg st'.
Proof.
  unfold near_bounds. intros [->| ->]; [done|]. intros _. repeat split; [done|by left].
Qed.

Lemma visit_player_x cfg r is_coin i o st :
  player_x (visit cfg r is_coin i o st) = player_x st \/
  player_x (visit cfg r is_coin i o st) = 0.
Proof.
  destruct (visit_cases cfg r is_coin i o st)
    as [(_ & ->)|[(_ & _ & ->)|(_ & _ & ->)]]; destruct is_coin, r; cbn; auto.
Qed.

Lemma move_objects_near_bounds cfg r st :
  near_bounds cfg st -> near_bounds cfg (move_objects cfg r st).
Proof.
  apply move_objects_invariant. intros is_coin i o s _.
  apply near_bounds_player_x, visit_player_x.
Qed.

Lemma handle_event_near_bounds cfg e st st' :
  handle_event cfg e st = Continue st' -> near_bounds cfg st -> near_bounds cfg st'.
Proof.
  destruct e as [[]|[]| |]; cbn; intros Heq; simplify_eq; try done;
    apply near_bounds_player_x; cbn; auto.
Qed.

Lemma examine_events_near_bounds cfg evs : forall st st',
  examine_events cfg evs st = Continue st' -> near_bounds cfg st -> near_bounds cfg st'.
Proof.
  induction evs as [|e evs IH]; intros st st' Heq Hst; cbn in Heq.
  - by simplify_eq.
  - destruct (handle_event cfg e st) as [st1| |] eqn:He; cbn in Heq; try done.
    eapply IH; [done|]. by eapply handle_event_near_bounds.
Qed.

Lemma generate_image_near_bounds cfg r image prob draw raw st st' :
  generate_image cfg r image prob draw raw st = Continue st' ->
  near_bounds cfg st -> near_bounds cfg st'.
Proof.
  unfold generate_image. destruct (Qle_bool draw prob); [|by intros; simplify_eq].
  destruct (randint _ _ _) as [x| |]; cbn; intros Heq; simplify_eq.
  apply near_bounds_player_x. left. by destruct r.
Qed.

Lemma game_loop_body_near_bounds cfg f st time st' time' :
  game_loop_body cfg f (st, time) = Continue (st', time') ->
  near_bounds cfg st -> near_bounds cfg st'.
Proof.
  unfold game_loop_body. intros Heq Hst.
  destruct (examine_events cfg (events f) st) as [st1| |] eqn:Hev; cbn in Heq; try done.
  apply examine_events_near_bounds in Hev; [|done].
  destruct (game_over st1); cbn in Heq; [by simplify_eq|].
  destruct (1000 <? ticks f - time); cbn in Heq.
  - destruct (generate_image cfg Coins _ _ _ _ st1) as [a| |] eqn:Ha; cbn in Heq; try done.
    destruct (generate_image cfg Monsters _ _ _ _ a) as [b| |] eqn:Hb; cbn in Heq; try done.
    simplify_eq. do 2 apply move_objects_near_bounds. apply move_player_near_bounds.
    eapply generate_image_near_bounds; [done|].
    by eapply generate_image_near_bounds.
  - simplify_eq. do 2 apply move_objects_near_bounds. by apply move_player_near_bounds.
Qed.

(** In every state the loop reaches from a new game, [player_x] is even
    and lies in [[0, display_width - robot width + 1]] (or is 0, on a
    display narrower than the robot). *)
Lemma game_loop_near_bounds cfg frames : forall st time st' time',
  game_loop cfg frames (st, time) = Continue (st', time') ->
  near_bounds cfg st -> near_bounds cfg st'.
Proof.
  induction frames as [|f frames IH]; intros st time st' time' Heq Hst.
  - cbn in Heq. by simplify_eq.
  - change (game_loop cfg (f :: frames) (st, time))
      with (game_loop_body cfg f (st, time) ≫= game_loop cfg frames) in Heq.
    destruct (game_loop_body cfg f (st, time)) as [[st1 time1]| |] eqn:Hb; cbn in Heq; try done.
    eapply IH; [done|]. by eapply game_loop_body_near_bounds.
Qed.

Lemma initial_near_bounds cfg : near_bounds cfg (initial cfg).
Proof. repeat split; [done|by left]. Qed.

(** X14.  When [display_width - robot width] is even and not negative, as
    with the default display and the 50 pixel robot, every state the loop
    reaches from a new game has
    [0 <= player_x <= display_width - robot width]. *)
Lemma player_x_in_bounds_even cfg frames time st' time' :
  Z.even (display_width cfg - get_width (images cfg robot)) = true ->
  0 <= display_width cfg - get_width (images cfg robot) ->
  game_loop cfg frames (initial cfg, time) = Continue (st', time') ->
  0 <= player_x st' <= display_width cfg - get_width (images cfg robot).
Proof.
  intros Heven Hpos Hrun.
  destruct (game_loop_near_bounds cfg frames _ _ _ _ Hrun (initial_near_bounds cfg))
    as (Hx & H0 & Hw).
  split; [done|]. destruct Hw as [->|Hw]; [done|].
  destruct (decide (player_x st' = display_width cfg - get_width (images cfg robot) + 1))
    as [E|]; [|lia].
  rewrite E, Z.even_add, Heven in Hx. done.
Qed.

(** ** The reset of the robot takes effect within the call *)

Lemma for_enumerate_log cfg r is_coin : forall fuel i st,
  for_enumerate cfg r is_coin fuel i st =
    after_log cfg r is_coin st (visit_log cfg r is_coin fuel i st).
Proof.
  induction fuel as [|fuel IH]; intros i st; cbn; [done|].
  destruct (objects_of r st !! i) as [o|] eqn:Hi; [|done].
  rewrite IH. unfold after_log. rewrite last_cons.
  by destruct (last (visit_log cfg r is_coin fuel (S i) (visit cfg r is_coin i o st)))
    as [[[j o'] s']|].
Qed.

Lemma at_reset_robot_rect cfg st :
  at_reset cfg st ->
  robot_rect cfg st =
    get_rect (images cfg robot) (0, display_height cfg - get_height (images cfg robot)).
Proof. intros (Hx & Hy & _). unfold robot_rect. by rewrite Hx, Hy. Qed.

Lemma visit_monster_hit_at_reset cfg r i o st :
  hits cfg false o st = true -> at_reset cfg (visit cfg r false i o st).
Proof. intros Hhit. rewrite visit_hits by done. by destruct r. Qed.

Lemma visit_keeps_at_reset cfg r is_coin i o st :
  at_reset cfg st -> at_reset cfg (visit cfg r is_coin i o st).
Proof.
  intros Hst.
  by destruct (visit_cases cfg r is_coin i o st)
    as [(_ & ->)|[(_ & _ & ->)|(_ & _ & ->)]]; destruct is_coin, r.
Qed.

Lemma visit_log_at_reset cfg r is_coin : forall fuel i st,
  at_reset cfg st ->
  Forall (fun e => at_reset cfg (snd e)) (visit_log cfg r is_coin fuel i st).
Proof.
  induction fuel as [|fuel IH]; intros i st Hst; cbn; [constructor|].
  destruct (objects_of r st !! i) as [o|]; [|constructor].
  constructor; [done|]. apply IH. by apply visit_keeps_at_reset.
Qed.

Lemma visit_log_after_hit cfg r : forall fuel i st before j o s after,
  visit_log cfg r false fuel i st = before ++ (j, o, s) :: after ->
  hits cfg false o s = true ->
  Forall (fun e => at_reset cfg (snd e)) after.
Proof.
  induction fuel as [|fuel IH]; intros i st before j o s after Hlog Hhit; cbn in Hlog.
  - by destruct before.
  - destruct (objects_of r st !! i) as [o'|]; [|by destruct before].
    destruct before as [|b before]; cbn in Hlog; simplify_eq.
    + apply visit_log_at_reset. by apply visit_monster_hit_at_reset.
    + by eapply IH.
Qed.

(** C10.  The code does not always reset the robot when a monster is on
    it: when the list of monsters holds the same tuples as the list of
    coins, [objects == self.coins] is true in the call on the monsters.
    The first monster overlaps the robot and is removed for one point; no
    life is taken, the robot stays at [x = 110], and the later round of
    the same call tests its monster against the robot there, not at the
    reset position. *)
Theorem monster_hit_without_reset :
  monsters twins_on_robot = coins twins_on_robot /\
  colliderect (get_rect (images default_config monster) (100, 355))
              (robot_rect default_config twins_on_robot) = true /\
  move_objects default_config Monsters twins_on_robot =
    mkState 110 394 false false [(300, 237); (0, 120)]
            [(100, 355); (300, 237); (0, 119)] 1 3 0 /\
  visit_log default_config Monsters
      (bool_decide (monsters twins_on_robot = coins twins_on_robot)) 3 0 twins_on_robot =
    [(0%nat, (100, 355), twins_on_robot);
     (1%nat, (0, 119),
      mkState 110 394 false false [(300, 237); (0, 119)]
              [(100, 355); (300, 237); (0, 119)] 1 3 0)] /\
  ~ at_reset default_config (move_objects default_config Monsters twins_on_robot).
Proof.
  split_and!; try by vm_compute.
  intros (Hx & _). vm_compute in Hx. discriminate.
Qed.

(** [twins_on_robot] arises in play: in [twin_play] each monster catches
    up with its coin in frame 326 and falls with it from then on; in frame
    453 the call on the coins leaves the two lists equal, the first pair
    touching the robot, and the call on the monsters starts from
    [twins_on_robot]. *)
Lemma twins_on_robot_reached :
  exists st time,
    game_loop default_config (twin_play 452) (initial default_config, 0) = Continue (st, time) /\
    move_objects default_config Coins (move_player default_config st) = twins_on_robot /\
    game_loop default_config (twin_play 453) (initial default_config, 0)
      = Continue (move_objects default_config Monsters twins_on_robot, time).
Proof. do 2 eexists. by vm_compute. Qed.

(** X18.  In a call of [move_objects] on the monsters, the list not being
    equal to the list of coins, once a round finds its monster on the
    robot, every later round of the same call runs with the robot at
    [(0, display_height - robot height)] and both movement flags cleared:
    the rectangle it tests its monster against is the one at the reset
    position, and the call ends with the robot there. *)
Theorem later_monsters_meet_reset_robot cfg st before i o s after :
  monsters st <> coins st ->
  visit_log cfg Monsters false (length (monsters st)) 0 st = before ++ (i, o, s) :: after ->
  hits cfg false o s = true ->
  Forall (fun e =>
            at_reset cfg (snd e) /\
            robot_rect cfg (snd e) =
              get_rect (images cfg robot)
                (0, display_height cfg - get_height (images cfg robot)))
         after /\
  at_reset cfg (move_objects cfg Monsters st).
Proof.
  intros Hne Hlog Hhit.
  pose proof (visit_log_after_hit _ _ _ _ _ _ _ _ _ _ Hlog Hhit) as Hafter.
  split.
  - eapply Forall_impl; [exact Hafter|]. intros e He. split; [done|].
    by apply at_reset_robot_rect.
  - rewrite move_objects_monsters, for_enumerate_log, Hlog by done.
    unfold after_log. rewrite last_app. cbn [last].
    destruct after as [|e after] using rev_ind.
    + cbn. by apply visit_monster_hit_at_reset.
    + rewrite app_comm_cons, last_snoc. destruct e as [[j o'] s'].
      apply visit_keeps_at_reset.
      apply Forall_app in Hafter as [_ He]. by apply Forall_inv in He.
Qed.

(** The monster at the left edge is away from the robot as the call
    begins and is hit all the same, because the robot has been sent
    there. *)
Lemma monster_hit_at_reset_position :
  hits default_config false (0, 400) two_monsters_apart = false /\
  monsters (move_objects default_config Monsters two_monsters_apart) = [(300, 0)] /\
  player_lives (move_objects default_config Monsters two_monsters_apart) = 1.
Proof. by vm_compute. Qed.

(** ** Instances of the theorems above *)

Lemma game_over_freeze_witness :
  match game_loop default_config frames_after_game_over (no_life, 0) with
  | Continue (st', time') =>
      score st' = score no_life /\ missed_coins st' = missed_coins no_life /\
      coins st' = coins no_life /\ monsters st' = monsters no_life /\
      player_x st' = player_x no_life /\ player_y st' = player_y no_life /\
      game_over st' = true
  | SystemExit => Exists asks_quit frames_after_game_over
  | ValueError => False
  end.
Proof.
  apply (game_over_freeze default_config frames_after_game_over no_life 0).
  - reflexivity.
  - repeat constructor.
Defined.



Lemma coin_removed_by_call_521_witness :
  (forall n : nat, (n <= 520)%nat ->
     coins (Nat.iter n (move_objects small_coin_config Coins) fresh_coin)
       = [(100, -20 + Z.of_nat n)] /\
     missed_coins (Nat.iter n (move_objects small_coin_config Coins) fresh_coin)
       = missed_coins fresh_coin) /\
  removed_and_missed small_coin_config 521 fresh_coin.
Proof.
  apply (coin_removed_by_call_521 small_coin_config fresh_coin 100).
  - reflexivity.
  - reflexivity.
  - reflexivity.
  - reflexivity.
  - intros y. reflexivity.
Defined.

Lemma later_monsters_meet_reset_robot_witness :
  Forall (fun e =>
            at_reset default_config (snd e) /\
            robot_rect default_config (snd e) =
              get_rect (images default_config robot)
                (0, display_height default_config
                    - get_height (images default_config robot)))
         [(1%nat, (0, 400), mkState 0 394 false false [(300, 0); (0, 400)] [] 0 2 0)] /\
  at_reset default_config (move_objects default_config Monsters two_monsters_apart).
Proof.
  apply (later_monsters_meet_reset_robot default_config two_monsters_apart
           [] 0 (60, 400) two_monsters_apart).
  - discriminate.
  - reflexivity.
  - reflexivity.
Defined.

(** * Further properties of the code *)

(** ** The loop of [move_objects] as a single pass *)

Lemma set_objects_set_objects r l l' st :
  set_objects r l (set_objects r l' st) = set_objects r l st.
Proof. by destruct r. Qed.

Lemma removes_set_objects cfg c o r l st :
  removes cfg c o (set_objects r l st) = removes cfg c o st.
Proof. by destruct r. Qed.

Lemma effect_set_objects cfg c o r l st :
  effect cfg c o (set_objects r l st) = set_objects r l (effect cfg c o st).
Proof.
  unfold effect. replace (hits cfg c o (set_objects r l st)) with (hits cfg c o st)
    by by destruct r.
  by destruct (off_screen cfg c o), (hits cfg c o st), c, r.
Qed.

Lemma moved_set_objects cfg c o r l st :
  moved cfg c o (set_objects r l st) = moved cfg c o st.
Proof. by destruct r. Qed.

Lemma objects_of_effect cfg c o r st : objects_of r (effect cfg c o st) = objects_of r st.
Proof.
  unfold effect. by destruct (off_screen cfg c o), (hits cfg c o st), c, r.
Qed.

(** A visit is its effect on the other attributes together with the
    change of the list. *)
Lemma visit_effect cfg r c i o st :
  visit cfg r c i o st =
    set_objects r (if removes cfg c o st then delete i (objects_of r st)
                   else <[i := moved cfg c o st]> (objects_of r st))
                (effect cfg c o st).
Proof.
  unfold removes, effect, moved.
  destruct (visit_cases cfg r c i o st)
    as [(-> & ->)|[(-> & -> & ->)|(-> & -> & ->)]]; cbn [orb].
  - unfold pop. by destruct c, r.
  - unfold pop. by destruct c, r.
  - unfold set_item. by destruct r.
Qed.

Lemma sweep_set_objects cfg c r L : forall (n : nat) l st,
  (length l <= n)%nat ->
  sweep cfg c l (set_objects r L st) =
    (fst (sweep cfg c l st), set_objects r L (snd (sweep cfg c l st))).
Proof.
  induction n as [|n IH]; intros l st Hn.
  - destruct l; [done|cbn in Hn; lia].
  - destruct l as [|o rest]; [done|]. cbn [sweep].
    rewrite removes_set_objects, effect_set_objects, moved_set_objects.
    destruct (removes cfg c o st).
    + destruct rest as [|next rest']; [done|].
      rewrite IH by (cbn in Hn; lia).
      by destruct (sweep cfg c rest' (effect cfg c o st)).
    + rewrite IH by (cbn in Hn; lia).
      by destruct (sweep cfg c rest (effect cfg c o st)).
Qed.

Lemma for_enumerate_sweep cfg r c : forall fuel done rest st,
  objects_of r st = done ++ rest ->
  (length rest <= fuel)%nat ->
  for_enumerate cfg r c fuel (length done) st =
    set_objects r (done ++ fst (sweep cfg c rest st)) (snd (sweep cfg c rest st)).
Proof.
  induction fuel as [|fuel IH]; intros done rest st Hl Hfuel.
  - destruct rest; [|cbn in Hfuel; lia]. cbn. by rewrite <- Hl, set_objects_id.
  - destruct rest as [|o rest].
    + cbn. rewrite Hl, lookup_ge_None_2 by (rewrite length_app; cbn; lia).
      by rewrite <- Hl, set_objects_id.
    + cbn [for_enumerate]. rewrite Hl, list_lookup_middle by done.
      rewrite visit_effect, Hl. cbn [sweep].
      destruct (removes cfg c o st).
      * rewrite delete_middle. destruct rest as [|next rest'].
        { destruct fuel; cbn; [done|].
          rewrite objects_of_set_objects, lookup_ge_None_2; [done|].
          rewrite length_app. cbn. lia. }
        replace (S (length done)) with (length (done ++ [next]))
          by (rewrite length_app; cbn; lia).
        rewrite IH with (rest := rest').
        -- rewrite (sweep_set_objects _ _ _ _ (length rest')) by done. cbn [fst snd].
           rewrite set_objects_set_objects.
           destruct (sweep cfg c rest' (effect cfg c o st)). cbn.
           by rewrite <- app_assoc.
        -- rewrite objects_of_set_objects. by rewrite <- app_assoc.
        -- cbn in Hfuel. lia.
      * rewrite insert_app_r_alt by done. rewrite Nat.sub_diag. cbn [insert list_insert].
        replace (S (length done)) with (length (done ++ [moved cfg c o st]))
          by (rewrite length_app; cbn; lia).
        rewrite IH with (rest := rest).
        -- rewrite (sweep_set_objects _ _ _ _ (length rest)) by done. cbn [fst snd].
           rewrite set_objects_set_objects.
           destruct (sweep cfg c rest (effect cfg c o st)). cbn.
           by rewrite <- app_assoc.
        -- rewrite objects_of_set_objects. by rewrite <- app_assoc.
        -- cbn in Hfuel. lia.
Qed.

(** X1.  A call of [move_objects] computes what the single pass [sweep]
    computes on the list it was given: objects are handled from left to
    right, an object that is not removed is moved, and after each removed
    object the next one is kept unchanged without being looked at. *)
Theorem move_objects_sweep cfg r st :
  let c := bool_decide (objects_of r st = coins st) in
  move_objects cfg r st =
    set_objects r (fst (sweep cfg c (objects_of r st) st))
                  (snd (sweep cfg c (objects_of r st) st)).
Proof.
  intros c. unfold move_objects. fold c. case_bool_decide as Hnil.
  - by rewrite (for_enumerate_sweep cfg r c _ [] (objects_of r st)).
  - rewrite Hnil. cbn. by rewrite <- Hnil, set_objects_id.
Qed.

Lemma fall_speed_effect cfg c o st :
  fall_speed cfg c (effect cfg c o st) = fall_speed cfg c st.
Proof.
  destruct c; [done|]. unfold fall_speed, effect.
  by destruct (off_screen cfg false o), (hits cfg false o st).
Qed.

Lemma sweep_same_or_fallen cfg c : forall (n : nat) l st,
  (length l <= n)%nat ->
  exists kept,
    kept `sublist_of` l /\
    Forall2 (same_or_fallen (fall_speed cfg c st)) kept (fst (sweep cfg c l st)).
Proof.
  induction n as [|n IH]; intros l st Hn.
  - destruct l; [|cbn in Hn; lia]. exists []. by split; constructor.
  - destruct l as [|o rest]; [exists []; by split; constructor|]. cbn [sweep].
    destruct (removes cfg c o st).
    + destruct rest as [|next rest'].
      { exists []. split; [apply sublist_nil_l|constructor]. }
      destruct (IH rest' (effect cfg c o st)) as (kept & Hsub & Hall); [cbn in Hn; lia|].
      rewrite fall_speed_effect in Hall.
      destruct (sweep cfg c rest' (effect cfg c o st)) as [l' st']. cbn in *.
      exists (next :: kept). split.
      * by apply sublist_cons, sublist_skip.
      * constructor; [by left|done].
    + destruct (IH rest (effect cfg c o st)) as (kept & Hsub & Hall); [cbn in Hn; lia|].
      rewrite fall_speed_effect in Hall.
      destruct (sweep cfg c rest (effect cfg c o st)) as [l' st']. cbn in *.
      exists (o :: kept). split.
      * by apply sublist_skip.
      * constructor; [by right|done].
Qed.

(** X2.  A call of [move_objects] adds no object, reorders none and moves
    none sideways or up: the list it leaves is, element by element, a
    subsequence of the list it found, each object either exactly as it was
    or moved down by the speed of the call. *)
Theorem move_objects_same_or_fallen cfg r st :
  let c := bool_decide (objects_of r st = coins st) in
  exists kept,
    kept `sublist_of` objects_of r st /\
    Forall2 (same_or_fallen (fall_speed cfg c st)) kept
            (objects_of r (move_objects cfg r st)).
Proof.
  intros c. unfold move_objects. fold c. case_bool_decide as Hnil.
  - rewrite (for_enumerate_sweep cfg r c _ [] (objects_of r st)) by done.
    rewrite objects_of_set_objects.
    by apply (sweep_same_or_fallen cfg c (length (objects_of r st))).
  - exists []. rewrite Hnil. split; constructor.
Qed.

(** ** How many objects a call looks at *)

Lemma visit_length_exact cfg r c i o st :
  objects_of r st !! i = Some o ->
  length (objects_of r (visit cfg r c i o st)) =
    if removes cfg c o st then pred (length (objects_of r st))
    else length (objects_of r st).
Proof.
  intros Hi. rewrite visit_objects. fold (removes cfg c o st).
  destruct (removes cfg c o st).
  - rewrite length_delete; [lia|by eexists].
  - by rewrite length_insert.
Qed.

Lemma visit_log_rounds cfg r c : forall fuel i st,
  (length (objects_of r st) - i <= fuel)%nat ->
  (length (visit_log cfg r c fuel i st) <= length (objects_of r st) - i
   <= 2 * length (visit_log cfg r c fuel i st))%nat.
Proof.
  induction fuel as [|fuel IH]; intros i st Hfuel; cbn.
  - lia.
  - destruct (objects_of r st !! i) as [o|] eqn:Hi.
    + pose proof (lookup_lt_Some _ _ _ Hi) as Hlt.
      pose proof (visit_length_exact cfg r c i o st Hi) as Hlen.
      specialize (IH (S i) (visit cfg r c i o st)). cbn [length].
      destruct (removes cfg c o st); lia.
    + apply lookup_ge_None_1 in Hi. cbn. lia.
Qed.

(** X3.  A call of [move_objects] runs the body of its loop at most once
    for each object of the list and at least once for every two: no
    object is looked at twice, and at most every other one is passed
    over. *)
Theorem move_objects_rounds cfg r c st :
  let rounds := length (visit_log cfg r c (length (objects_of r st)) 0 st) in
  (rounds <= length (objects_of r st) <= 2 * rounds)%nat.
Proof.
  cbn zeta. pose proof (visit_log_rounds cfg r c (length (objects_of r st)) 0 st). lia.
Qed.

(** ** What a call on the coins accounts for *)

Lemma visit_other_list cfg r r' c i o st :
  r' <> r -> objects_of r' (visit cfg r c i o st) = objects_of r' st.
Proof.
  intros Hne. rewrite visit_effect.
  rewrite objects_of_set_objects_ne by done. apply objects_of_effect.
Qed.

(** X4.  A call of [move_objects] on the coins removes a coin only by
    counting it as collected or as missed: the number of coins it removes
    is the gain of [score] plus the gain of [missed_coins], neither of
    which goes down.  It leaves the lives, the robot, the movement flags
    and the monsters as they are. *)
Theorem move_objects_coins_accounts cfg st :
  let st' := move_objects cfg Coins st in
  Z.of_nat (length (coins st)) =
    Z.of_nat (length (coins st')) + (score st' - score st)
      + (missed_coins st' - missed_coins st) /\
  score st <= score st' /\ missed_coins st <= missed_coins st' /\
  player_lives st' = player_lives st /\
  player_x st' = player_x st /\ player_y st' = player_y st /\
  to_left st' = to_left st /\ to_right st' = to_right st /\
  monsters st' = monsters st.
Proof.
  cbn zeta. rewrite move_objects_coins.
  apply (for_enumerate_invariant cfg Coins true
    (fun s =>
       Z.of_nat (length (coins st)) =
         Z.of_nat (length (coins s)) + (score s - score st)
           + (missed_coins s - missed_coins st) /\
       score st <= score s /\ missed_coins st <= missed_coins s /\
       player_lives s = player_lives st /\
       player_x s = player_x st /\ player_y s = player_y st /\
       to_left s = to_left st /\ to_right s = to_right st /\
       monsters s = monsters st)).
  - intros i o s Hi (Hlen & Hsc & Hmi & Hli & Hx & Hy & Hl & Hr & Hm).
    pose proof (visit_length_exact cfg Coins true i o s Hi) as Hvl.
    pose proof (lookup_lt_Some _ _ _ Hi) as Hlt.
    pose proof (visit_other_list cfg Coins Monsters true i o s) as Hother.
    cbn [objects_of] in Hvl, Hlt, Hother. rewrite Hother by done.
    unfold removes in Hvl.
    destruct (visit_cases cfg Coins true i o s)
      as [(Hoff & Hv)|[(Hoff & Hhit & Hv)|(Hoff & Hhit & Hv)]];
      rewrite Hoff, ?Hhit in Hvl; cbn [orb] in Hvl; rewrite Hv in *; cbn in *;
      repeat split; try done; lia.
  - repeat split; try done; lia.
Qed.

(** ** What a call on the monsters accounts for *)

(** X5.  A call of [move_objects] on the monsters (the list differing from
    the list of coins) leaves the score, the missed coins and the coins as
    they are; it never adds a life and takes at most one life for each
    monster it removes.  The robot is moved only when a life is taken,
    and then it ends the call at the reset position. *)
Theorem move_objects_monsters_accounts cfg st :
  monsters st <> coins st ->
  let st' := move_objects cfg Monsters st in
  score st' = score st /\ missed_coins st' = missed_coins st /\ coins st' = coins st /\
  player_lives st' <= player_lives st /\
  player_lives st - player_lives st'
    <= Z.of_nat (length (monsters st)) - Z.of_nat (length (monsters st')) /\
  (player_lives st' = player_lives st ->
     player_x st' = player_x st /\ player_y st' = player_y st /\
     to_left st' = to_left st /\ to_right st' = to_right st) /\
  (player_lives st' < player_lives st -> at_reset cfg st').
Proof.
  intros Hne. cbn zeta. rewrite move_objects_monsters by done.
  apply (for_enumerate_invariant cfg Monsters false
    (fun s =>
       score s = score st /\ missed_coins s = missed_coins st /\ coins s = coins st /\
       player_lives s <= player_lives st /\
       player_lives st - player_lives s
         <= Z.of_nat (length (monsters st)) - Z.of_nat (length (monsters s)) /\
       (player_lives s = player_lives st ->
          player_x s = player_x st /\ player_y s = player_y st /\
          to_left s = to_left st /\ to_right s = to_right st) /\
       (player_lives s < player_lives st -> at_reset cfg s))).
  - intros i o s Hi (Hsc & Hmi & Hco & Hle & Hlen & Hsame & Hreset).
    pose proof (visit_length_exact cfg Monsters false i o s Hi) as Hvl.
    pose proof (lookup_lt_Some _ _ _ Hi) as Hlt.
    pose proof (visit_other_list cfg Monsters Coins false i o s) as Hother.
    cbn [objects_of] in Hvl, Hlt, Hother. rewrite Hother by done.
    unfold removes in Hvl.
    destruct (visit_cases cfg Monsters false i o s)
      as [(Hoff & Hv)|[(Hoff & Hhit & Hv)|(Hoff & Hhit & Hv)]];
      rewrite Hoff, ?Hhit in Hvl; cbn [orb] in Hvl.
    + rewrite Hv in *. cbn in *.
      split_and!; try done; try lia; intros Hl;
        first [exact (Hsame Hl)|exact (Hreset Hl)].
    + assert (at_reset cfg (visit cfg Monsters false i o s)) as Hat
        by by apply visit_monster_hit_at_reset.
      rewrite Hv in *. cbn in *.
      split_and!; try done; try lia; intros Hl; first [exact Hat|lia].
    + rewrite Hv in *. cbn in *.
      split_and!; try done; try lia; intros Hl;
        first [exact (Hsame Hl)|exact (Hreset Hl)].
  - repeat split; try done; try lia.
Qed.

Lemma move_objects_monsters_accounts_witness :
  let st' := move_objects default_config Monsters two_monsters_apart in
  score st' = score two_monsters_apart /\
  missed_coins st' = missed_coins two_monsters_apart /\
  coins st' = coins two_monsters_apart /\
  player_lives st' <= player_lives two_monsters_apart /\
  player_lives two_monsters_apart - player_lives st'
    <= Z.of_nat (length (monsters two_monsters_apart)) - Z.of_nat (length (monsters st')) /\
  (player_lives st' = player_lives two_monsters_apart ->
     player_x st' = player_x two_monsters_apart /\
     player_y st' = player_y two_monsters_apart /\
     to_left st' = to_left two_monsters_apart /\
     to_right st' = to_right two_monsters_apart) /\
  (player_lives st' < player_lives two_monsters_apart -> at_reset default_config st').
Proof.
  apply (move_objects_monsters_accounts default_config two_monsters_apart).
  discriminate.
Defined.

(** ** Invariants of the game loop *)

(** A property kept by each step of a frame is kept by the frame and by
    any run of the loop; [ok] restricts the events of the frames. *)
Lemma examine_events_invariant cfg (ok : Event -> Prop) (P : State -> Prop) :
  (forall e st st', ok e -> handle_event cfg e st = Continue st' -> P st -> P st') ->
  forall evs st st',
    Forall ok evs -> examine_events cfg evs st = Continue st' -> P st -> P st'.
Proof.
  intros Hev. induction evs as [|e evs IH]; intros st st' Hok Heq Hst; cbn in Heq.
  - by simplify_eq.
  - inversion_clear Hok as [|? ? He Hevs].
    destruct (handle_event cfg e st) as [st1| |] eqn:Hh; cbn in Heq; try done.
    eapply IH; [done|done|]. by eapply Hev.
Qed.

Lemma game_loop_body_invariant cfg (ok : Event -> Prop) (P : State -> Prop) :
  (forall e st st', ok e -> handle_event cfg e st = Continue st' -> P st -> P st') ->
  (forall draw raw st st',
     generate_image cfg Coins (images cfg coin) (1 # 4) draw raw st = Continue st' ->
     P st -> P st') ->
  (forall draw raw st st',
     generate_image cfg Monsters (images cfg monster) (1 # 2) draw raw st = Continue st' ->
     P st -> P st') ->
  (forall st, P st -> P (move_player cfg st)) ->
  (forall r st, P st -> P (move_objects cfg r st)) ->
  forall f st time st' time',
    Forall ok (events f) ->
    game_loop_body cfg f (st, time) = Continue (st', time') -> P st -> P st'.
Proof.
  intros Hev Hcoin Hmonster Hplayer Hobjects f st time st' time' Hok Heq Hst.
  unfold game_loop_body in Heq.
  destruct (examine_events cfg (events f) st) as [st1| |] eqn:He; cbn in Heq; try done.
  apply (examine_events_invariant cfg ok P Hev _ _ _ Hok) in He; [|done].
  destruct (game_over st1); cbn in Heq; [by simplify_eq|].
  destruct (1000 <? ticks f - time); cbn in Heq.
  - destruct (generate_image cfg Coins _ _ _ _ st1) as [a| |] eqn:Ha; cbn in Heq; try done.
    destruct (generate_image cfg Monsters _ _ _ _ a) as [b| |] eqn:Hb; cbn in Heq; try done.
    simplify_eq. do 2 apply Hobjects. apply Hplayer. eauto.
  - simplify_eq. do 2 apply Hobjects. by apply Hplayer.
Qed.

Lemma game_loop_invariant cfg (ok : Event -> Prop) (P : State -> Prop) :
  (forall e st st', ok e -> handle_event cfg e st = Continue st' -> P st -> P st') ->
  (forall draw raw st st',
     generate_image cfg Coins (images cfg coin) (1 # 4) draw raw st = Continue st' ->
     P st -> P st') ->
  (forall draw raw st st',
     generate_image cfg Monsters (images cfg monster) (1 # 2) draw raw st = Continue st' ->
     P st -> P st') ->
  (forall st, P st -> P (move_player cfg st)) ->
  (forall r st, P st -> P (move_objects cfg r st)) ->
  forall frames st time st' time',
    Forall (fun f => Forall ok (events f)) frames ->
    game_loop cfg frames (st, time) = Continue (st', time') -> P st -> P st'.
Proof.
  intros Hev Hcoin Hmonster Hplayer Hobjects.
  induction frames as [|f frames IH]; intros st time st' time' Hok Heq Hst.
  - cbn in Heq. by simplify_eq.
  - inversion_clear Hok as [|? ? Hf Hfs].
    change (game_loop cfg (f :: frames) (st, time))
      with (game_loop_body cfg f (st, time) ≫= game_loop cfg frames) in Heq.
    destruct (game_loop_body cfg f (st, time)) as [[st1 time1]| |] eqn:Hb; cbn in Heq; try done.
    eapply IH; [done|done|].
    by eapply (game_loop_body_invariant cfg ok P).
Qed.

(** ** States reached in play *)

Lemma fall_speed_nonneg cfg c st :
  0 <= velocity_y cfg -> 0 <= missed_coins st -> 0 <= fall_speed cfg c st.
Proof.
  intros Hv Hm. destruct c; cbn; [done|].
  pose proof (Z.div_pos (missed_coins st) 2 Hm). lia.
Qed.

Lemma visit_in_play cfg r c i o st :
  (r = Coins -> c = true) ->
  0 <= velocity_y cfg ->
  objects_of r st !! i = Some o ->
  in_play cfg st -> in_play cfg (visit cfg r c i o st).
Proof.
  intros Hrc Hv Hi (Hcoins & Hmonsters & Hscore & Hmissed & Hlives & Hy).
  pose proof (fall_speed_nonneg cfg c st Hv Hmissed) as Hspeed.
  assert (off_screen cfg c o = false ->
          r = Coins -> coin_in_range cfg (fst o, snd o + fall_speed cfg c st)) as Hcoin.
  { intros Hoff ->. rewrite (Hrc eq_refl) in *.
    pose proof (Forall_lookup_1 _ _ _ _ Hcoins Hi) as (Hx & Hlo & Hhi).
    unfold off_screen in Hoff. cbn in Hoff. apply Z.leb_gt in Hoff.
    unfold coin_in_range. cbn in *. lia. }
  assert (r = Monsters -> monster_in_range cfg (fst o, snd o + fall_speed cfg c st))
    as Hmonster.
  { intros ->. pose proof (Forall_lookup_1 _ _ _ _ Hmonsters Hi) as (Hx & Hlo).
    unfold monster_in_range. cbn in *. lia. }
  destruct (visit_cases cfg r c i o st)
    as [(Hoff & ->)|[(Hoff & Hhit & ->)|(Hoff & Hhit & ->)]].
  - destruct r, c; cbn; unfold in_play; cbn;
      split_and!; try done; try lia; by apply Forall_delete.
  - destruct r, c; cbn; unfold in_play; cbn;
      split_and!; try done; try lia; by apply Forall_delete.
  - destruct r; cbn; unfold in_play; cbn; split_and!; try done;
      apply Forall_insert; auto.
Qed.

Lemma move_objects_in_play cfg r st :
  0 <= velocity_y cfg -> in_play cfg st -> in_play cfg (move_objects cfg r st).
Proof.
  intros Hv Hst. destruct r.
  - rewrite move_objects_coins. apply for_enumerate_invariant; [|done].
    intros i o s Hi Hs. by apply visit_in_play.
  - unfold move_objects. case_bool_decide; [|done].
    apply for_enumerate_invariant; [|done].
    intros i o s Hi Hs. by apply visit_in_play.
Qed.

Lemma initial_in_play cfg : in_play cfg (initial cfg).
Proof. unfold in_play. cbn. split_and!; by try constructor. Qed.

Lemma handle_event_in_play cfg e st st' :
  handle_event cfg e st = Continue st' -> in_play cfg st -> in_play cfg st'.
Proof.
  intros Heq Hst.
  destruct e as [[]|[]| |]; cbn in Heq; simplify_eq; try done;
    apply initial_in_play.
Qed.

Lemma move_player_in_play cfg st : in_play cfg st -> in_play cfg (move_player cfg st).
Proof.
  intros Hst. unfold move_player.
  destruct (to_right st && _); cbn; destruct (to_left st && _); by cbn.
Qed.

Lemma generate_coin_in_play cfg draw raw st st' :
  0 <= velocity_y cfg -> 0 <= display_height cfg -> 0 < get_height (images cfg coin) ->
  generate_image cfg Coins (images cfg coin) (1 # 4) draw raw st = Continue st' ->
  in_play cfg st -> in_play cfg st'.
Proof.
  intros Hv HH Hh Heq (Hcoins & Hrest). unfold generate_image in Heq.
  destruct (Qle_bool draw (1 # 4)); [|by simplify_eq].
  destruct (decide (0 <= display_width cfg - get_width (images cfg coin))) as [Hw|Hw].
  - destruct (randint_range 0 _ raw Hw) as (x & Hx & Hrange).
    rewrite Hx in Heq. cbn in Heq. simplify_eq.
    split; [|done]. cbn. apply Forall_app. split; [done|].
    constructor; [|constructor]. unfold coin_in_range. cbn. lia.
  - rewrite randint_empty in Heq by lia. done.
Qed.

Lemma generate_monster_in_play cfg draw raw st st' :
  generate_image cfg Monsters (images cfg monster) (1 # 2) draw raw st = Continue st' ->
  in_play cfg st -> in_play cfg st'.
Proof.
  intros Heq (Hcoins & Hmonsters & Hrest). unfold generate_image in Heq.
  destruct (Qle_bool draw (1 # 2)); [|by simplify_eq].
  destruct (decide (0 <= display_width cfg - get_width (images cfg monster))) as [Hw|Hw].
  - destruct (randint_range 0 _ raw Hw) as (x & Hx & Hrange).
    rewrite Hx in Heq. cbn in Heq. simplify_eq.
    split; [done|]. split; [|done]. cbn. apply Forall_app. split; [done|].
    constructor; [|constructor]. unfold monster_in_range. cbn. lia.
  - rewrite randint_empty in Heq by lia. done.
Qed.

(** X6.  In every state the loop reaches from a new game, whatever the
    events, the clock and the random draws: each coin has
    [0 <= x <= display_width - coin width] and
    [- coin height <= y < display_height + coin height + velocity_y];
    each monster has [0 <= x <= display_width - monster width] and
    [y >= - monster height]; the score and the missed coins are not
    negative, the lives are at most 3 and [player_y] is
    [display_height - robot height].  This needs [velocity_y] and
    [display_height] not negative and a coin of positive height. *)
Theorem game_loop_in_play cfg frames time st' time' :
  0 <= velocity_y cfg -> 0 <= display_height cfg -> 0 < get_height (images cfg coin) ->
  game_loop cfg frames (initial cfg, time) = Continue (st', time') ->
  in_play cfg st'.
Proof.
  intros Hv HH Hh Hrun.
  apply (game_loop_invariant cfg (fun _ => True) (in_play cfg)) with
    (frames := frames) (st := initial cfg) (time := time) (time' := time').
  - intros e st st1 _. apply handle_event_in_play.
  - intros draw raw st st1. by apply generate_coin_in_play.
  - intros draw raw st st1. apply generate_monster_in_play.
  - apply move_player_in_play.
  - intros r st. by apply move_objects_in_play.
  - apply Forall_forall. intros f _. by apply Forall_forall.
  - done.
  - apply initial_in_play.
Qed.

(** ** Counters over a run *)

(** The counters of [b] against those of [a]: no point lost, no missed
    coin forgotten, no life gained. *)
Lemma visit_counters cfg r c i o st :
  score st <= score (visit cfg r c i o st) /\
  missed_coins st <= missed_coins (visit cfg r c i o st) /\
  player_lives (visit cfg r c i o st) <= player_lives st.
Proof.
  destruct (visit_cases cfg r c i o st)
    as [(_ & ->)|[(_ & _ & ->)|(_ & _ & ->)]]; destruct r, c; cbn; lia.
Qed.

Lemma generate_image_counters cfg r image prob draw raw st st' :
  generate_image cfg r image prob draw raw st = Continue st' ->
  score st' = score st /\ missed_coins st' = missed_coins st /\
  player_lives st' = player_lives st.
Proof.
  unfold generate_image. destruct (Qle_bool draw prob); [|by intros; simplify_eq].
  destruct (randint _ _ _) as [x| |]; cbn; intros Heq; simplify_eq. by destruct r.
Qed.

(** X7.  Over any run of the loop whose events hold no restart request,
    the score and the missed coins never go down and the lives never go
    up. *)
Theorem game_loop_counters cfg frames st time st' time' :
  Forall no_restart frames ->
  game_loop cfg frames (st, time) = Continue (st', time') ->
  score st <= score st' /\ missed_coins st <= missed_coins st' /\
  player_lives st' <= player_lives st.
Proof.
  intros Hno Hrun.
  apply (game_loop_invariant cfg (fun e => is_restart e = false)
           (fun s => score st <= score s /\ missed_coins st <= missed_coins s /\
                     player_lives s <= player_lives st))
    with (frames := frames) (st := st) (time := time) (time' := time').
  - intros e s s1 He Heq Hs.
    destruct e as [[]|[]| |]; cbn in Heq, He; simplify_eq; done.
  - intros draw raw s s1 Heq Hs.
    apply generate_image_counters in Heq as (-> & -> & ->). done.
  - intros draw raw s s1 Heq Hs.
    apply generate_image_counters in Heq as (-> & -> & ->). done.
  - intros s Hs. unfold move_player.
    destruct (to_right s && _); cbn; destruct (to_left s && _); by cbn.
  - intros r s Hs. apply move_objects_invariant; [|done].
    intros c i o s1 _ Hs1. pose proof (visit_counters cfg r c i o s1). lia.
  - done.
  - done.
  - lia.
Qed.

(** ** Spawning within a frame *)

Lemma handle_event_objects cfg e r st st' :
  handle_event cfg e st = Continue st' ->
  objects_of r st' = objects_of r st \/ objects_of r st' = [].
Proof.
  destruct e as [[]|[]| |]; cbn; intros Heq; simplify_eq; destruct r; auto.
Qed.

Lemma examine_events_objects cfg r evs : forall st st',
  examine_events cfg evs st = Continue st' ->
  objects_of r st' = objects_of r st \/ objects_of r st' = [].
Proof.
  induction evs as [|e evs IH]; intros st st' Heq; cbn in Heq.
  - simplify_eq. by left.
  - destruct (handle_event cfg e st) as [st1| |] eqn:He; cbn in Heq; try done.
    destruct (IH _ _ Heq) as [-> | ->]; [|by right].
    by apply (handle_event_objects cfg e r) in He.
Qed.

Lemma generate_image_objects cfg r r' image prob draw raw st st' :
  generate_image cfg r image prob draw raw st = Continue st' ->
  objects_of r' st' = objects_of r' st \/
  exists o, r' = r /\ objects_of r' st' = objects_of r' st ++ [o].
Proof.
  unfold generate_image. destruct (Qle_bool draw prob); [|intros; simplify_eq; by left].
  destruct (randint _ _ _) as [x| |]; cbn; intros Heq; simplify_eq.
  destruct r, r'; cbn; eauto.
Qed.

Lemma move_objects_length cfg r r' st :
  (length (objects_of r' (move_objects cfg r st)) <= length (objects_of r' st))%nat.
Proof.
  apply (move_objects_invariant cfg r
           (fun s => (length (objects_of r' s) <= length (objects_of r' st))%nat));
    [|done].
  intros c i o s Hi Hs.
  destruct r, r';
    first [ rewrite visit_other_list by done; exact Hs
          | etrans; [apply visit_length|exact Hs] ].
Qed.

Lemma move_player_objects cfg r st : objects_of r (move_player cfg st) = objects_of r st.
Proof.
  unfold move_player.
  destruct (to_right st && _); cbn; destruct (to_left st && _); by destruct r.
Qed.

(** X8.  One round of the loop adds at most one coin and at most one
    monster.  When no more than 1000 ms have passed since the last
    attempt, it adds none and keeps the time of the last attempt. *)
Theorem game_loop_body_spawns cfg f st time st' time' :
  game_loop_body cfg f (st, time) = Continue (st', time') ->
  (forall r, (length (objects_of r st') <= length (objects_of r st) + 1)%nat) /\
  (ticks f - time <= 1000 ->
   time' = time /\
   forall r, (length (objects_of r st') <= length (objects_of r st))%nat).
Proof.
  unfold game_loop_body. intros Heq.
  destruct (examine_events cfg (events f) st) as [st1| |] eqn:He; cbn in Heq; try done.
  assert (forall r, (length (objects_of r st1) <= length (objects_of r st))%nat) as Hev.
  { intros r. destruct (examine_events_objects cfg r _ _ _ He) as [-> | ->]; cbn; lia. }
  destruct (game_over st1); cbn in Heq.
  { simplify_eq. split; [intros r; specialize (Hev r); lia|done]. }
  destruct (1000 <? ticks f - time) eqn:Hticks; cbn in Heq.
  - apply Z.ltb_lt in Hticks.
    destruct (generate_image cfg Coins _ _ _ _ st1) as [a| |] eqn:Ha; cbn in Heq; try done.
    destruct (generate_image cfg Monsters _ _ _ _ a) as [b| |] eqn:Hb; cbn in Heq; try done.
    simplify_eq. split; [|lia]. intros r.
    pose proof (move_objects_length cfg Monsters r
                  (move_objects cfg Coins (move_player cfg b))) as H1.
    pose proof (move_objects_length cfg Coins r (move_player cfg b)) as H2.
    rewrite move_player_objects in H2. specialize (Hev r).
    assert (length (objects_of r b) <= length (objects_of r st1) + 1)%nat; [|lia].
    destruct (generate_image_objects cfg Coins r _ _ _ _ _ _ Ha) as [Ea|(oa & Era & Ea)];
      destruct (generate_image_objects cfg Monsters r _ _ _ _ _ _ Hb) as [Eb|(ob & Erb & Eb)];
      try (subst r; discriminate); rewrite Eb, ?Ea, ?length_app; cbn; lia.
  - simplify_eq. split; [|split; [done|]]; intros r;
      pose proof (move_objects_length cfg Monsters r
                    (move_objects cfg Coins (move_player cfg st1))) as H1;
      pose proof (move_objects_length cfg Coins r (move_player cfg st1)) as H2;
      rewrite move_player_objects in H2; specialize (Hev r); lia.
Qed.

(** ** How the loop ends *)

Lemma handle_event_outcome cfg e st :
  match handle_event cfg e st with
  | Continue _ => is_quit e = false
  | SystemExit => is_quit e = true
  | ValueError => False
  end.
Proof. by destruct e as [[]|[]| |]. Qed.

Lemma examine_events_cases cfg evs : forall st,
  match examine_events cfg evs st with
  | Continue _ => Forall (fun e => is_quit e = false) evs
  | SystemExit => Exists (fun e => is_quit e = true) evs
  | ValueError => False
  end.
Proof.
  induction evs as [|e evs IH]; intros st; cbn; [constructor|].
  pose proof (handle_event_outcome cfg e st) as He.
  destruct (handle_event cfg e st) as [st1| |]; cbn; [|by left|done].
  specialize (IH st1).
  destruct (examine_events cfg evs st1); [by constructor|by right|done].
Qed.

(** X9.  [examine_events] never raises, and it calls [exit()] exactly when
    the batch of events holds an Escape key press or a QUIT event,
    whatever else the batch holds and whatever the state. *)
Theorem examine_events_exits_iff_quit cfg evs st :
  examine_events cfg evs st <> ValueError /\
  (examine_events cfg evs st = SystemExit <-> Exists (fun e => is_quit e = true) evs).
Proof.
  pose proof (examine_events_cases cfg evs st) as He.
  destruct (examine_events cfg evs st) as [st'| |]; [|done|done].
  split; [done|]. split; [done|]. intros Hex.
  apply Exists_exists in Hex as (e & Hin & Hq).
  rewrite Forall_forall in He. specialize (He e Hin). congruence.
Qed.

Lemma generate_image_continues cfg r image prob draw raw st :
  get_width image <= display_width cfg ->
  exists st', generate_image cfg r image prob draw raw st = Continue st'.
Proof.
  intros Hw. unfold generate_image. destruct (Qle_bool draw prob); [|by eexists].
  destruct (randint_range 0 (display_width cfg - get_width image) raw)
    as (x & -> & _); [lia|]. by eexists.
Qed.

Lemma game_loop_body_outcome cfg f st time :
  get_width (images cfg coin) <= display_width cfg ->
  get_width (images cfg monster) <= display_width cfg ->
  match game_loop_body cfg f (st, time) with
  | Continue _ => ~ asks_quit f
  | SystemExit => asks_quit f
  | ValueError => False
  end.
Proof.
  intros Hcoin Hmonster. unfold game_loop_body.
  pose proof (examine_events_cases cfg (events f) st) as He.
  destruct (examine_events cfg (events f) st) as [st1| |]; cbn; [|done|done].
  assert (~ asks_quit f) as Hno.
  { unfold asks_quit. intros Hex. apply Exists_exists in Hex as (e & Hin & Hq).
    rewrite Forall_forall in He. specialize (He e Hin). congruence. }
  destruct (game_over st1); cbn; [done|].
  destruct (1000 <? ticks f - time); cbn; [|done].
  destruct (generate_image_continues cfg Coins (images cfg coin) (1 # 4)
              (coin_draw f) (coin_raw f) st1 Hcoin) as (a & ->).
  cbn.
  destruct (generate_image_continues cfg Monsters (images cfg monster) (1 # 2)
              (monster_draw f) (monster_raw f) a Hmonster) as (b & ->).
  done.
Qed.

(** X10.  On a display at least as wide as the coin and the monster, a run
    of the loop never raises; it ends by [exit()] exactly when one of its
    frames brings an Escape key press or a QUIT event, and otherwise goes
    through all its frames. *)
Theorem game_loop_outcome cfg frames : forall st time,
  get_width (images cfg coin) <= display_width cfg ->
  get_width (images cfg monster) <= display_width cfg ->
  match game_loop cfg frames (st, time) with
  | Continue _ => Forall (fun f => ~ asks_quit f) frames
  | SystemExit => Exists asks_quit frames
  | ValueError => False
  end.
Proof.
  induction frames as [|f frames IH]; intros st time Hcoin Hmonster; [by constructor|].
  change (game_loop cfg (f :: frames) (st, time))
    with (game_loop_body cfg f (st, time) ≫= game_loop cfg frames).
  pose proof (game_loop_body_outcome cfg f st time Hcoin Hmonster) as Hb.
  destruct (game_loop_body cfg f (st, time)) as [[st1 time1]| |]; cbn; [|by left|done].
  specialize (IH st1 time1 Hcoin Hmonster).
  destruct (game_loop cfg frames (st1, time1)); [by constructor|by right|done].
Qed.

(** ** A restart forgets what came before *)

Lemma examine_events_app cfg evs1 evs2 st :
  examine_events cfg (evs1 ++ evs2) st =
    examine_events cfg evs1 st ≫= examine_events cfg evs2.
Proof.
  revert st. induction evs1 as [|e evs1 IH]; intros st; cbn; [done|].
  destruct (handle_event cfg e st) as [st1| |]; cbn; [apply IH|done|done].
Qed.

(** X11.  When a batch of events holds an F1 key press with no Escape
    press or QUIT event before it, what [examine_events] returns does not
    depend on the state it starts from nor on the events before the F1:
    it is what the events after the F1 give from a new game. *)
Theorem examine_events_restart cfg evs1 evs2 st :
  Forall (fun e => is_quit e = false) evs1 ->
  examine_events cfg (evs1 ++ KEYDOWN K_F1 :: evs2) st =
    examine_events cfg evs2 (initial cfg).
Proof.
  intros Hno. rewrite examine_events_app.
  pose proof (examine_events_cases cfg evs1 st) as He.
  destruct (examine_events cfg evs1 st) as [st1| |]; cbn.
  - done.
  - apply Exists_exists in He as (e & Hin & Hq).
    rewrite Forall_forall in Hno. specialize (Hno e Hin). congruence.
  - done.
Qed.

(** ** Walking to the right *)

Lemma steps_right_spec cfg x m :
  0 <= m ->
  (x + 2 * m + get_width (images cfg robot) < display_width cfg <-> m < steps_right cfg x).
Proof.
  intros Hm. unfold steps_right.
  pose proof (Z.div_mod (display_width cfg - get_width (images cfg robot) - x + 1) 2) as Hdm.
  pose proof (Z.mod_pos_bound (display_width cfg - get_width (images cfg robot) - x + 1) 2).
  lia.
Qed.

Lemma move_player_right cfg st :
  to_right st = true -> to_left st = false ->
  move_player cfg st =
    if player_x st + get_width (images cfg robot) <? display_width cfg
    then set_player_x (player_x st + 2) st else st.
Proof.
  intros Hr Hl. unfold move_player. rewrite Hr. cbn.
  destruct (_ <? _); cbn; by rewrite Hl.
Qed.

(** X12.  With the right key held and the left key up, [n] calls of
    [move_player] take the robot from [x] to [x + 2 * min n k], where [k]
    is the number of steps after which [x + width < display_width] fails:
    two pixels a call, then it stays where it is; nothing else in the
    state changes. *)
Theorem move_player_right_n cfg st (n : nat) :
  to_right st = true -> to_left st = false ->
  Nat.iter n (move_player cfg) st =
    set_player_x (player_x st + 2 * Z.min (Z.of_nat n) (steps_right cfg (player_x st))) st.
Proof.
  intros Hr Hl. induction n as [|n IH].
  - cbn [Nat.iter nat_rect]. unfold Nat.iter. cbn [nat_rect].
    assert (0 <= steps_right cfg (player_x st)) by (unfold steps_right; lia).
    replace (Z.min (Z.of_nat 0) (steps_right cfg (player_x st))) with 0 by lia.
    replace (player_x st + 2 * 0) with (player_x st) by lia. by destruct st.
  - rewrite Nat.iter_succ, IH. rewrite move_player_right by done. cbn [player_x set_player_x].
    assert (0 <= Z.min (Z.of_nat n) (steps_right cfg (player_x st))) as Hm
      by (unfold steps_right; lia).
    pose proof (steps_right_spec cfg (player_x st) _ Hm) as Hspec.
    destruct (_ <? _) eqn:Hlt.
    + apply Z.ltb_lt in Hlt. apply Hspec in Hlt. unfold set_player_x. cbn. f_equal. lia.
    + apply Z.ltb_ge in Hlt. f_equal.
      assert (~ Z.min (Z.of_nat n) (steps_right cfg (player_x st))
                < steps_right cfg (player_x st)) by (rewrite <- Hspec; lia).
      lia.
Qed.

(** ** The robot and the edges of the screen *)

(** X13.  In every state the loop reaches from a new game, [player_x] is
    even and not negative, and it is at most one pixel past
    [display_width - robot width] (or is 0, when the display is narrower
    than the robot). *)
Theorem reachable_near_bounds cfg frames time st' time' :
  game_loop cfg frames (initial cfg, time) = Continue (st', time') ->
  near_bounds cfg st'.
Proof.
  intros Hrun. eapply game_loop_near_bounds; [exact Hrun|]. apply initial_near_bounds.
Qed.

(** ** Instances of the further properties *)

Lemma game_loop_in_play_witness :
  in_play default_config (mkState 0 394 false false [] [(100, -38)] 0 3 0).
Proof.
  apply (game_loop_in_play default_config (play60 60) 0
           (mkState 0 394 false false [] [(100, -38)] 0 3 0) 1003).
  - by vm_compute.
  - by vm_compute.
  - by vm_compute.
  - by vm_compute.
Defined.

Lemma game_loop_counters_witness :
  score (initial default_config) <= 0 /\ missed_coins (initial default_config) <= 0 /\
  -1 <= player_lives (initial default_config).
Proof.
  apply (game_loop_counters default_config four_hits (initial default_config) 0
           (mkState 0 394 false false [(400, 350); (400, 346); (400, 342)] [] 0 (-1) 0)
           7007).
  - unfold four_hits, no_restart. repeat (apply Forall_app; split);
      repeat first [apply Forall_nil; done | apply Forall_cons; split];
      try (apply Forall_forall; intros f Hf; apply repeat_spec in Hf; subst f);
      by repeat constructor.
  - by vm_compute.
Defined.

Lemma game_loop_body_spawns_witness :
  (forall r,
     (length (objects_of r first_monster)
      <= length (objects_of r (initial default_config)) + 1)%nat) /\
  (ticks (monster_at [] 2000 7) - 0 <= 1000 ->
   2000 = 0 /\
   forall r,
     (length (objects_of r first_monster)
      <= length (objects_of r (initial default_config)))%nat).
Proof.
  apply (game_loop_body_spawns default_config (monster_at [] 2000 7)
           (initial default_config) 0 first_monster 2000).
  by vm_compute.
Defined.

Lemma game_loop_outcome_witness :
  match game_loop default_config four_hits (initial default_config, 0) with
  | Continue _ => Forall (fun f => ~ asks_quit f) four_hits
  | SystemExit => Exists asks_quit four_hits
  | ValueError => False
  end.
Proof.
  apply (game_loop_outcome default_config four_hits (initial default_config) 0).
  - by vm_compute.
  - by vm_compute.
Defined.

Lemma examine_events_restart_witness :
  examine_events default_config
    ([KEYDOWN K_RIGHT; other_event] ++ KEYDOWN K_F1 :: [KEYDOWN K_LEFT]) no_life =
  examine_events default_config [KEYDOWN K_LEFT] (initial default_config).
Proof.
  apply (examine_events_restart default_config [KEYDOWN K_RIGHT; other_event]
           [KEYDOWN K_LEFT] no_life).
  by repeat constructor.
Defined.

Lemma move_player_right_n_witness :
  Nat.iter 300 (move_player default_config) (set_to_right true (initial default_config)) =
    set_player_x
      (player_x (set_to_right true (initial default_config))
       + 2 * Z.min (Z.of_nat 300)
               (steps_right default_config
                  (player_x (set_to_right true (initial default_config)))))
      (set_to_right true (initial default_config)).
Proof.
  apply (move_player_right_n default_config (set_to_right true (initial default_config)) 300).
  - reflexivity.
  - reflexivity.
Defined.

Lemma reachable_near_bounds_witness :
  near_bounds odd_width_config (mkState 592 394 false true [] [] 0 3 0).
Proof.
  apply (reachable_near_bounds odd_width_config
           (keys_at [KEYDOWN K_RIGHT] 0 :: repeat (idle_at 0) 295) 0
           (mkState 592 394 false true [] [] 0 3 0) 0).
  by vm_compute.
Defined.

Lemma player_x_in_bounds_even_witness :
  0 <= player_x (mkState 590 394 false true [] [] 0 3 0)
    <= display_width default_config - get_width (images default_config robot).
Proof.
  apply (player_x_in_bounds_even default_config
           (keys_at [KEYDOWN K_RIGHT] 0 :: repeat (idle_at 0) 300) 0
           (mkState 590 394 false true [] [] 0 3 0) 0).
  - by vm_compute.
  - by vm_compute.
  - by vm_compute.
Defined.

Lemma move_objects_range_witness :
  Forall (fun o : Pos => - 40 <= snd o < 480 + 40 + 1)
         (objects_of Coins (move_objects default_config Coins no_life)).
Proof.
  apply (move_objects_range default_config Coins no_life).
  - by vm_compute.
  - repeat constructor; by vm_compute.
Defined.

Lemma removal_skips_next_witness :
  objects_of Coins (for_enumerate default_config Coins true 2 0 two_fallen_coins) !! 0%nat
    = Some (200, 520).
Proof.
  apply (removal_skips_next default_config Coins true 1 0 two_fallen_coins
           (10, 520) (200, 520)).
  - reflexivity.
  - reflexivity.
  - reflexivity.
Defined.

Lemma generate_image_narrow_witness :
  generate_image (init_config 30 480 sprites) Coins (mkImage 40 40) (1 # 4) (1 # 8) 5
    no_life = ValueError.
Proof.
  apply (generate_image_narrow (init_config 30 480 sprites) Coins (mkImage 40 40)
           (1 # 4) (1 # 8) 5 no_life).
  - cbn. lia.
  - by vm_compute.
Defined.
